(** * seri: a reflection-driven JSON encoder (include/seri/seri.hpp)

    A shallow embedding of the header and the properties its encoder
    satisfies.

    [serialize] is a function template: which branch of its [if constexpr]
    chain is compiled depends on the type of the value.  Here a [value_t]
    carries, next to its data, the facts about its type that the concepts of
    the header test, and [serialize] is the same chain of tests in the same
    order.  The writer is passed explicitly; a call completes by returning,
    by throwing a [serialization_error], or not at all when a
    [static_assert] rejects the instantiation.

    The model knows the type of an element only through the elements that
    are there: a [static_assert] on the element type of an empty container
    is not seen.  The standard library is modelled by its contract:
    [std::to_chars] for integers by the decimal text, for floating-point
    values by a parameter; [std::optional] is not a range, as the tests of
    the repository require. *)

From Stdlib Require Import Bool Ascii String List ZArith NArith Lia SpecFloat.
Import ListNotations.
Local Open Scope string_scope.

(** ** Characters and strings *)

Definition quote : ascii := "034"%char.
Definition backslash : ascii := "092"%char.
Definition newline : ascii := "010"%char.
Definition carriage_return : ascii := "013"%char.
Definition tab : ascii := "009"%char.

(** [std::string::push_back]. *)
Definition push_back (s : string) (c : ascii) : string := s ++ String c "".

(** ** The error type and the writer *)

Record source_location := {
  file_name : string;
  line : N;
  function_name : string
}.

Record serialization_error := {
  message : string;
  where_ : source_location
}.

Record json_writer := { buffer : string }.

Definition write_char (c : ascii) (out : json_writer) : json_writer :=
  {| buffer := push_back (buffer out) c |}.

Definition write (view : string) (out : json_writer) : json_writer :=
  {| buffer := buffer out ++ view |}.

(** The body of the loop of [write_escaped]: the [switch] on one character. *)
Definition write_escaped_char (out : json_writer) (c : ascii) : json_writer :=
  if Ascii.eqb c backslash then
    {| buffer := buffer out ++ String backslash (String backslash "") |}
  else if Ascii.eqb c quote then
    {| buffer := buffer out ++ String backslash (String quote "") |}
  else if Ascii.eqb c newline then
    {| buffer := buffer out ++ String backslash "n" |}
  else if Ascii.eqb c carriage_return then
    {| buffer := buffer out ++ String backslash "r" |}
  else if Ascii.eqb c tab then
    {| buffer := buffer out ++ String backslash "t" |}
  else
    {| buffer := push_back (buffer out) c |}.

(** [for (char c : view)], threading the writer. *)
Fixpoint for_each_char (body : json_writer -> ascii -> json_writer)
    (view : string) (out : json_writer) : json_writer :=
  match view with
  | "" => out
  | String c rest => for_each_char body rest (body out c)
  end.

Definition write_escaped (view : string) (out : json_writer) : json_writer :=
  let out := write_char quote out in
  let out := for_each_char write_escaped_char view out in
  write_char quote out.

Definition str (out : json_writer) : string := buffer out.

(** ** Completions

    A call either returns, or throws a [serialization_error] (the writer is a
    reference, so what was appended before the throw stays in it), or is
    rejected when the template is instantiated ([static_assert]). *)

Inductive completion (A : Type) : Type :=
| Normal (a : A) (out : json_writer)
| Throw (e : serialization_error) (out : json_writer)
| IllFormed (diagnostic : string).

Arguments Normal {A} a out.
Arguments Throw {A} e out.
Arguments IllFormed {A} diagnostic.

Definition M (A : Type) : Type := json_writer -> completion A.

Definition ret {A} (a : A) : M A := fun out => Normal a out.

Definition bind {A B} (m : M A) (k : A -> M B) : M B :=
  fun out =>
    match m out with
    | Normal a out' => k a out'
    | Throw e out' => Throw e out'
    | IllFormed d => IllFormed d
    end.

Definition throw {A} (e : serialization_error) : M A := fun out => Throw e out.

Definition static_assert_fails {A} (diagnostic : string) : M A :=
  fun _ => IllFormed diagnostic.

(** A call of a writer member function, which cannot fail. *)
Definition call (f : json_writer -> json_writer) : M unit :=
  fun out => Normal tt (f out).

Declare Scope seri_scope.
Delimit Scope seri_scope with seri.
Notation "x <- m ;; k" := (bind m (fun x => k))
  (at level 61, m at next level, right associativity) : seri_scope.
Notation "m ;; k" := (bind m (fun _ => k))
  (at level 61, right associativity) : seri_scope.
Local Open Scope seri_scope.

(** ** [std::to_chars]

    The standard library is not part of the header.  [to_chars] is modelled by
    its contract: the characters of the value are written when they fit in
    [first, last), and [value_too_large] is reported otherwise.  For integers
    the characters are the decimal digits, with a minus sign for negative
    values and no leading zeros. *)

Definition digit_char (d : N) : ascii := ascii_of_N (48 + d).

Fixpoint digits (fuel : nat) (n : N) (acc : string) : string :=
  match fuel with
  | O => acc
  | S fuel' =>
      let acc' := String (digit_char (n mod 10)) acc in
      if (n / 10 =? 0)%N then acc' else digits fuel' (n / 10) acc'
  end.

Definition decimal_N (n : N) : string := digits (S (N.size_nat n)) n "".

Definition decimal (z : Z) : string :=
  match z with
  | Z0 => "0"
  | Zpos p => decimal_N (Npos p)
  | Zneg p => String "-" (decimal_N (Npos p))
  end.

(** [None] stands for [ec == std::errc::value_too_large]. *)
Definition to_chars (capacity : nat) (text : string) : option string :=
  if Nat.leb (String.length text) capacity then Some text else None.

(** ** Fundamental types *)

Inductive integral_type :=
| char_t | signed_char | unsigned_char
| short_t | unsigned_short
| int_t | unsigned_int
| long_t | unsigned_long
| long_long | unsigned_long_long.

Definition size_t := unsigned_long.

Definition is_signed (T : integral_type) : bool :=
  match T with
  | char_t | signed_char | short_t | int_t | long_t | long_long => true
  | _ => false
  end.

Definition width (T : integral_type) : Z :=
  match T with
  | char_t | signed_char | unsigned_char => 8
  | short_t | unsigned_short => 16
  | int_t | unsigned_int => 32
  | _ => 64
  end%Z.

(** Conversion to an integral type wraps around. *)
Definition static_cast (T : integral_type) (n : Z) : Z :=
  if is_signed T
  then ((n + 2 ^ (width T - 1)) mod 2 ^ width T - 2 ^ (width T - 1))%Z
  else (n mod 2 ^ width T)%Z.

Definition in_range (T : integral_type) (n : Z) : Prop :=
  if is_signed T
  then (- 2 ^ (width T - 1) <= n < 2 ^ (width T - 1))%Z
  else (0 <= n < 2 ^ width T)%Z.

Inductive floating_type := float_t | double_t | long_double.

(** What [std::to_chars] writes for a floating-point value when the buffer is
    large enough; the header leaves the format to the standard library. *)
Definition floating_format := floating_type -> spec_float -> string.

(** ** Metadata: namespace [seri::meta] *)

Module meta.

(** A pointer to member: which member of the object a field descriptor reads. *)
Definition member_pointer := string.

(** [field_descriptor<Ptr>]: the member pointer is a template argument. *)
Record field_descriptor := field_ {
  Ptr : member_pointer;
  name : string
}.

Definition field (Ptr : member_pointer) (name : string) : field_descriptor :=
  field_ Ptr name.

(** [type_descriptor<T, BasesTuple, FieldsTuple>].  A [base_descriptor<Base>]
    only names the type [Base]; it is used through
    [type_description<Base>()], and is identified with that description. *)
#[warnings="-register-all"]
Inductive type_descriptor :=
| describe (bases : list type_descriptor) (fields : list field_descriptor).

Definition bases (d : type_descriptor) : list type_descriptor :=
  match d with describe bs _ => bs end.

Definition fields (d : type_descriptor) : list field_descriptor :=
  match d with describe _ fs => fs end.

(** [enum_case_descriptor<Enum, Value>]: the members [name] and [value]. *)
Record enum_case_descriptor := case_ {
  case_value : Z;
  case_name : string
}.

Record enum_descriptor := describe_enum {
  cases : list enum_case_descriptor
}.

Definition empty_enum : enum_descriptor := describe_enum [].

Definition has_value {A} (result : option A) : bool :=
  match result with Some _ => true | None => false end.

(** The fold expression [(assign(descriptors), ...)] runs [assign] on the
    cases from left to right; [result] is the captured local. *)
Definition name_of (d : enum_descriptor) (value : Z) : option string :=
  let assign (result : option string) (descriptor : enum_case_descriptor) :=
    if negb (has_value result) && (case_value descriptor =? value)%Z
    then Some (case_name descriptor)
    else result in
  fold_left assign (cases d) None.

Definition value_of (d : enum_descriptor) (name : string) : option Z :=
  let assign (result : option Z) (descriptor : enum_case_descriptor) :=
    if negb (has_value result) && (case_name descriptor =? name)%string
    then Some (case_value descriptor)
    else result in
  fold_left assign (cases d) None.

(** An enumeration type: its underlying type and the metadata providers that
    exist for it.  [std_meta_enum] is [None] unless the header is built with
    [SERI_USE_STD_REFLECTION] on a compiler that has it. *)
Record enum_type := {
  underlying_type : integral_type;
  std_meta_enum : option enum_descriptor;
  reflect_enum : option enum_descriptor
}.

Definition can_std_reflect_enum (E : enum_type) : bool :=
  has_value (std_meta_enum E).

Definition has_custom_enum_reflect (E : enum_type) : bool :=
  has_value (reflect_enum E).

Definition enum_description (E : enum_type) : enum_descriptor :=
  match std_meta_enum E with
  | Some d => d
  | None =>
      match reflect_enum E with
      | Some d => d
      | None => empty_enum
      end
  end.

End meta.

(** ** Values

    A value together with what the header can ask of its type.  The first
    seven constructors are the kinds of types that the header recognises by
    identity; [Compound] is any other type (a class, an array, a pointer),
    given by the expressions that are well-formed on it:
    - [view]: [std::string_view(value)], when that conversion exists;
    - [range]: the elements in iteration order, when the type is a
      [std::ranges::range]; [entries] when the element type has the members
      [first_type] and [second_type] (and so [first] and [second]);
    - [description]: [type_description<T>()] when the type has one, with the
      member values of the object. *)

Inductive range_view (V : Type) : Type :=
| elements (l : list V)
| entries (l : list (V * V)).

Arguments elements {V} l.
Arguments entries {V} l.

#[warnings="-register-all"]
Inductive value_t : Type :=
| Bool (b : bool)
| Integral (T : integral_type) (n : Z)
| Floating (T : floating_type) (x : spec_float)
| Enum (E : meta.enum_type) (n : Z)
| Optional (held : option value_t)
| Expected (has_value : bool) (payload : value_t)
| Variant (index : Z) (alt : value_t)
| Compound (view : option string)
           (range : option (range_view value_t))
           (description :
              option (meta.type_descriptor * (meta.member_pointer -> value_t))).

(** A [char] and a [std::string_view]: a view is also a range of its
    characters. *)
Definition char_value (c : ascii) : value_t :=
  Integral char_t (static_cast char_t (Z.of_N (N_of_ascii c))).

Definition std_string_view (s : string) : value_t :=
  Compound (Some s)
           (Some (elements (map char_value (list_ascii_of_string s))))
           None.

(** [descriptor.get(object)]: [object.*Ptr]. *)
Definition get (f : meta.field_descriptor)
    (object : meta.member_pointer -> value_t) : value_t :=
  object (meta.Ptr f).

(** ** Type traits and concepts: namespace [seri::detail] *)

Definition same_as_bool (U : value_t) : bool :=
  match U with Bool _ => true | _ => false end.

(** [bool] is an integral type. *)
Definition is_integral (U : value_t) : bool :=
  match U with Bool _ | Integral _ _ => true | _ => false end.

Definition is_floating_point (U : value_t) : bool :=
  match U with Floating _ _ => true | _ => false end.

Definition same_as_char (U : value_t) : bool :=
  match U with Integral char_t _ => true | _ => false end.

Definition is_enum (U : value_t) : bool :=
  match U with Enum _ _ => true | _ => false end.

(** [std::string_view(value)], when the conversion exists. *)
Definition string_view (value : value_t) : option string :=
  match value with Compound view _ _ => view | _ => None end.

(** [requires(T value) { std::string_view(value); }] *)
Definition constructs_string_view (U : value_t) : bool :=
  meta.has_value (string_view U).

Definition ranges_range (U : value_t) : bool :=
  match U with Compound _ (Some _) _ => true | _ => false end.

(** [range_value_t<T>] has [first_type] and [second_type]. *)
Definition has_first_second_type (U : value_t) : bool :=
  match U with Compound _ (Some (entries _)) _ => true | _ => false end.

Definition has_type_description (U : value_t) : bool :=
  match U with Compound _ _ (Some _) => true | _ => false end.

Module detail.

Definition reflectable (U : value_t) : bool := has_type_description U.

Definition string_like (U : value_t) : bool :=
  constructs_string_view U && negb (same_as_char U).

Definition map_like (U : value_t) : bool :=
  ranges_range U && has_first_second_type U.

Definition range_like (U : value_t) : bool :=
  ranges_range U && negb (string_like U).

Definition optional_like (U : value_t) : bool :=
  match U with Optional _ => true | _ => false end.

Definition expected_like (U : value_t) : bool :=
  match U with Expected _ _ => true | _ => false end.

Definition variant_like (U : value_t) : bool :=
  match U with Variant _ _ => true | _ => false end.

End detail.

(** ** The encoder *)

(** A loop over a range, and equally a fold expression [(f(pack), ...)] over
    the elements of a tuple: [body] runs on the elements from left to right;
    [A] is the local state the body updates. *)
Section ForEach.

Context {X A : Type}.
Variable body : X -> A -> M A.

Fixpoint for_each (range : list X) (a : A) : M A :=
  match range with
  | [] => ret a
  | x :: rest => a <- body x a ;; for_each rest a
  end.

End ForEach.

Definition here (line : N) (function_name : string) : source_location :=
  {| file_name := "include/seri/seri.hpp";
     line := line;
     function_name := function_name |}.

(** [write_delimiter(out, first)]: the new value of the local [first] is the
    result. *)
Definition write_delimiter (first : bool) : M bool :=
  if first then ret false
  else (call (write_char ",") ;; ret first).

Definition serialize_boolean (value : bool) : M unit :=
  call (write (if value then "true" else "false")).

Definition serialize_integral (value : Z) : M unit :=
  match to_chars 64 (decimal value) with
  | None =>
      throw {| message := "integral conversion failed";
               where_ := here 408 "serialize_integral" |}
  | Some text => call (write text)
  end.

(** A branch that is instantiated only for types on which its expressions
    are well-formed: the other cases of the model do not arise. *)
Definition unreachable {A} : M A := static_assert_fails "unreachable".

Definition serialize_string (value : value_t) : M unit :=
  match string_view value with
  | Some view => call (write_escaped view)
  | None => unreachable
  end.

Section Encoder.

(** The text of floating-point values is the standard library's. *)
Variable floating_text : floating_format.

Definition serialize_floating (T : floating_type) (value : spec_float)
  : M unit :=
  match to_chars 128 (floating_text T value) with
  | None =>
      throw {| message := "floating conversion failed";
               where_ := here 418 "serialize_floating" |}
  | Some text => call (write text)
  end.

Section Detail.

(** The forward declaration of [serialize]. *)
Variable serialize : value_t -> M unit.

Definition serialize_sequence (range : list value_t) : M unit :=
  call (write_char "[") ;;
  for_each (fun element first =>
              first <- write_delimiter first ;;
              serialize element ;;
              ret first) range true ;;
  call (write_char "]").

Definition serialize_map (range : list (value_t * value_t)) : M unit :=
  call (write_char "{") ;;
  for_each (fun pair first =>
              if detail.string_like (fst pair) then
                first <- write_delimiter first ;;
                serialize_string (fst pair) ;;
                call (write_char ":") ;;
                serialize (snd pair) ;;
                ret first
              else static_assert_fails "JSON map keys must be string-like")
           range true ;;
  call (write_char "}").

End Detail.

(** [for_each_field_impl]; [for_each_field] only forwards to it.  [fn] is a
    closure: [A] is the state it captures by reference besides the writer. *)
Section ForEachField.

Context {A : Type}.
Variable object : meta.member_pointer -> value_t.
Variable fn : string -> value_t -> A -> M A.

Fixpoint for_each_field_impl (descriptor : meta.type_descriptor) (a : A)
  : M A :=
  a <- for_each for_each_field_impl (meta.bases descriptor) a ;;
  for_each (fun fields a => fn (meta.name fields) (get fields object) a)
           (meta.fields descriptor) a.

End ForEachField.

Definition for_each_field {A : Type}
    (object : meta.member_pointer -> value_t)
    (descriptor : meta.type_descriptor)
    (fn : string -> value_t -> A -> M A) : A -> M A :=
  for_each_field_impl object fn descriptor.

Definition serialize_object_begin : M unit := call (write_char "{").
Definition serialize_object_end : M unit := call (write_char "}").

Definition serialize_object (serialize : value_t -> M unit)
    (descriptor : meta.type_descriptor)
    (value : meta.member_pointer -> value_t) : M unit :=
  serialize_object_begin ;;
  for_each_field value descriptor
    (fun name field first =>
       first <- write_delimiter first ;;
       call (write_escaped name) ;;
       call (write_char ":") ;;
       serialize field ;;
       ret first) true ;;
  serialize_object_end.

Definition serialize_enum (E : meta.enum_type) (value : Z) : M unit :=
  let descriptor := meta.enum_description E in
  match meta.name_of descriptor value with
  | Some name => call (write_escaped name)
  | None =>
      serialize_integral
        (static_cast (meta.underlying_type E) value)
  end.

Fixpoint serialize (value : value_t) : M unit :=
  let U := value in
  if same_as_bool U then
    match value with
    | Bool value => serialize_boolean value
    | _ => unreachable
    end
  else if is_integral U && negb (same_as_bool U) then
    match value with
    | Integral _ value => serialize_integral value
    | _ => unreachable
    end
  else if is_floating_point U then
    match value with
    | Floating T value => serialize_floating T value
    | _ => unreachable
    end
  else if detail.string_like U then
    serialize_string value
  else if is_enum U then
    match value with
    | Enum E value => serialize_enum E value
    | _ => unreachable
    end
  else if detail.map_like U then
    match value with
    | Compound _ (Some (entries range)) _ => serialize_map serialize range
    | _ => unreachable
    end
  else if detail.range_like U then
    match value with
    | Compound _ (Some (elements range)) _ =>
        serialize_sequence serialize range
    | _ => unreachable
    end
  else if detail.optional_like U then
    match value with
    | Optional (Some held) => serialize held
    | Optional None => call (write "null")
    | _ => unreachable
    end
  else if detail.expected_like U then
    match value with
    | Expected has_value payload =>
        call (write_char "{") ;;
        let idx_field :=
          call (write_escaped "state") ;;
          call (write_char ":") in
        (if has_value then
           idx_field ;;
           serialize_string (std_string_view "value") ;;
           call (write_char ",") ;;
           call (write_escaped "value") ;;
           call (write_char ":") ;;
           serialize payload
         else
           idx_field ;;
           serialize_string (std_string_view "error") ;;
           call (write_char ",") ;;
           call (write_escaped "error") ;;
           call (write_char ":") ;;
           serialize payload) ;;
        call (write_char "}")
    | _ => unreachable
    end
  else if detail.variant_like U then
    match value with
    | Variant index alt =>
        serialize_object_begin ;;
        first <- write_delimiter true ;;
        call (write_escaped "index") ;;
        call (write_char ":") ;;
        serialize_integral (static_cast size_t index) ;;
        first <- write_delimiter first ;;
        call (write_escaped "value") ;;
        call (write_char ":") ;;
        serialize alt ;;
        serialize_object_end
    | _ => unreachable
    end
  else if detail.reflectable U then
    match value with
    | Compound _ _ (Some (descriptor, object)) =>
        serialize_object serialize descriptor object
    | _ => unreachable
    end
  else
    static_assert_fails "Type is not serializable".

Definition to_json (value : value_t) : completion unit :=
  let writer := {| buffer := "" |} in
  serialize value writer.

End Encoder.

(** ** The specification's vocabulary

    The definitions below follow the wording of the specification; the
    theorems relate them to the code above. *)

(** *** Text *)

Definition quoted (s : string) : string := String quote (s ++ String quote "").

(** The escaping table: what one character of a string becomes. *)
Definition escape (c : ascii) : string :=
  if Ascii.eqb c backslash then String backslash (String backslash "")
  else if Ascii.eqb c quote then String backslash (String quote "")
  else if Ascii.eqb c newline then String backslash "n"
  else if Ascii.eqb c carriage_return then String backslash "r"
  else if Ascii.eqb c tab then String backslash "t"
  else String c "".

Fixpoint escaped (s : string) : string :=
  match s with
  | "" => ""
  | String c rest => escape c ++ escaped rest
  end.

(** The character an escape sequence stands for, given the character after
    the backslash. *)
Definition unescape (e : ascii) : option ascii :=
  if Ascii.eqb e backslash then Some backslash
  else if Ascii.eqb e quote then Some quote
  else if Ascii.eqb e "n" then Some newline
  else if Ascii.eqb e "r" then Some carriage_return
  else if Ascii.eqb e "t" then Some tab
  else None.

Definition prepend (c : ascii) (r : string * string) : string * string :=
  (String c (fst r), snd r).

(** Decoding of the inside of a quoted string, up to the closing quote: the
    decoded content and the text after the closing quote. *)
Fixpoint decode_body (text : string) : option (string * string) :=
  match text with
  | "" => None
  | String c rest =>
      if Ascii.eqb c quote then Some ("", rest)
      else if Ascii.eqb c backslash then
        match rest with
        | "" => None
        | String e rest' =>
            match unescape e with
            | Some d => option_map (prepend d) (decode_body rest')
            | None => None
            end
        end
      else option_map (prepend c) (decode_body rest)
  end.

Definition decode_string (text : string) : option (string * string) :=
  match text with
  | "" => None
  | String c rest => if Ascii.eqb c quote then decode_body rest else None
  end.

(** The number that a string of decimal digits denotes, after [acc]. *)
Definition digit_value (c : ascii) : N := N_of_ascii c - 48.

Fixpoint parse_digits (s : string) (acc : N) : N :=
  match s with
  | "" => acc
  | String c rest => parse_digits rest (10 * acc + digit_value c)
  end.

(** *** Completions as text *)

(** The completion [r] of a call on the empty writer, seen from a call on a
    writer that already holds [before]. *)
Definition frame {A} (before : string) (r : completion A) : completion A :=
  match r with
  | Normal a out => Normal a {| buffer := before ++ buffer out |}
  | Throw e out => Throw e {| buffer := before ++ buffer out |}
  | IllFormed d => IllFormed d
  end.

(** A computation that only appends: its completion on any writer is its
    completion on the empty writer, framed by what the writer held. *)
Definition appends {A} (m : M A) : Prop :=
  forall out, m out = frame (buffer out) (m {| buffer := "" |}).

(** A computation that is never rejected with the diagnostic [d]. *)
Definition never {A} (d : string) (m : M A) : Prop :=
  forall out, m out <> IllFormed d.

(** A computation whose thrown errors all satisfy [E] and whose rejections
    all carry a diagnostic that satisfies [D]. *)
Definition failures {A} (E : serialization_error -> Prop) (D : string -> Prop)
    (m : M A) : Prop :=
  forall out,
    match m out with
    | Normal _ _ => True
    | Throw e _ => E e
    | IllFormed d => D d
    end.

(** The two errors the header throws. *)
Definition integral_conversion_failed : serialization_error :=
  {| message := "integral conversion failed";
     where_ := here 408 "serialize_integral" |}.

Definition floating_conversion_failed : serialization_error :=
  {| message := "floating conversion failed";
     where_ := here 418 "serialize_floating" |}.

Definition conversion_error (e : serialization_error) : Prop :=
  e = integral_conversion_failed \/ e = floating_conversion_failed.

(** The diagnostics of the two [static_assert]s that can reject a call of
    [serialize]. *)
Definition rejection (d : string) : Prop :=
  d = "Type is not serializable" \/ d = "JSON map keys must be string-like".

(** The text of [r] between [before] and, when it completes, [after]. *)
Definition surround {A} (before after : string) (r : completion A)
  : completion A :=
  match r with
  | Normal a out => Normal a {| buffer := before ++ buffer out ++ after |}
  | Throw e out => Throw e {| buffer := before ++ buffer out |}
  | IllFormed d => IllFormed d
  end.

(** The writer of a completion that left one. *)
Definition writer_of {A} (r : completion A) : option json_writer :=
  match r with
  | Normal _ out | Throw _ out => Some out
  | IllFormed _ => None
  end.

Definition is_throw {A} (r : completion A) : bool :=
  match r with Throw _ _ => true | _ => false end.

(** *** Categories *)

Module Category.

Inductive t :=
| boolean | integer | floating_point | string_like | enumeration
| map_like | sequence_like | optional | result | variant
| reflectable_object.

Definition priority_order : list t :=
  [boolean; integer; floating_point; string_like; enumeration;
   map_like; sequence_like; optional; result; variant; reflectable_object].

(** The qualifying condition of a category, on its own. *)
Definition qualifies (c : t) (U : value_t) : bool :=
  match c with
  | boolean => same_as_bool U
  | integer => is_integral U && negb (same_as_bool U)
  | floating_point => is_floating_point U
  | string_like => detail.string_like U
  | enumeration => is_enum U
  | map_like => detail.map_like U
  | sequence_like => detail.range_like U
  | optional => detail.optional_like U
  | result => detail.expected_like U
  | variant => detail.variant_like U
  | reflectable_object => detail.reflectable U
  end.

(** The first category, in priority order, for which the type qualifies. *)
Definition classify (U : value_t) : option t :=
  find (fun c => qualifies c U) priority_order.

(** The character that opens the text of a category, for the categories
    whose text always opens with the same one. *)
Definition opening_character (c : t) : option ascii :=
  match c with
  | map_like | result | variant | reflectable_object => Some "{"%char
  | sequence_like => Some "["%char
  | string_like => Some quote
  | _ => None
  end.

End Category.

(** *** Flattening *)

(** All fields of the bases, each base flattened, in base order; then the
    type's own fields. *)
Fixpoint flattened_fields (d : meta.type_descriptor)
  : list meta.field_descriptor :=
  match d with
  | meta.describe bases fields => flat_map flattened_fields bases ++ fields
  end.

(** [members] joined by commas. *)
Definition comma_separated (members : list string) : string :=
  String.concat "," members.

Definition member_text (name : string) (value_text : string) : string :=
  quoted (escaped name) ++ ":" ++ value_text.

(** The members as a loop with [write_delimiter] emits them: a comma before
    each one except the first of the object. *)
Fixpoint delimited (first : bool) (members : list string) : string :=
  match members with
  | [] => ""
  | member :: rest =>
      (if first then "" else ",") ++ member ++ delimited false rest
  end.

Definition is_empty {X} (l : list X) : bool :=
  match l with [] => true | _ => false end.

Section Specification.

Variable floating_text : floating_format.

(** The text [to_json] returns, when it returns. *)
Definition encode (value : value_t) : option string :=
  match to_json floating_text value with
  | Normal _ out => Some (str out)
  | _ => None
  end.

(** The emission rule of each category (the encoder recurses through
    [serialize]). *)
Definition rule (c : option Category.t) (value : value_t) : M unit :=
  let serialize := serialize floating_text in
  match c, value with
  | Some Category.boolean, Bool b =>
      call (write (if b then "true" else "false"))
  | Some Category.integer, Integral _ n => serialize_integral n
  | Some Category.floating_point, Floating T x =>
      serialize_floating floating_text T x
  | Some Category.string_like, Compound (Some view) _ _ =>
      call (write (quoted (escaped view)))
  | Some Category.enumeration, Enum E n => serialize_enum E n
  | Some Category.map_like, Compound _ (Some (entries range)) _ =>
      serialize_map serialize range
  | Some Category.sequence_like, Compound _ (Some (elements range)) _ =>
      serialize_sequence serialize range
  | Some Category.optional, Optional None => call (write "null")
  | Some Category.optional, Optional (Some held) => serialize held
  | Some Category.result, Expected has_value payload =>
      let tag := if has_value then "value" else "error" in
      call (write ("{" ++ quoted "state" ++ ":" ++ quoted tag ++ ","
                       ++ quoted tag ++ ":")) ;;
      serialize payload ;;
      call (write "}")
  | Some Category.variant, Variant index alt =>
      call (write ("{" ++ quoted "index" ++ ":")) ;;
      serialize_integral (static_cast size_t index) ;;
      call (write ("," ++ quoted "value" ++ ":")) ;;
      serialize alt ;;
      call (write "}")
  | Some Category.reflectable_object, Compound _ _ (Some (descriptor, object)) =>
      serialize_object serialize descriptor object
  | None, _ => static_assert_fails "Type is not serializable"
  | _, _ => unreachable
  end.

End Specification.

(** ** The values of tests/serializer_tests.cpp *)

Module serializer_tests.

Definition std_string (s : string) : value_t := std_string_view s.

Definition int (n : Z) : value_t := Integral int_t n.

Definition std_vector (l : list value_t) : value_t :=
  Compound None (Some (elements l)) None.

Definition std_map (l : list (value_t * value_t)) : value_t :=
  Compound None (Some (entries l)) None.

Definition Named : meta.type_descriptor :=
  meta.describe [] [meta.field "Named::name" "name"].

Definition Address : meta.type_descriptor :=
  meta.describe []
    [meta.field "Address::street" "street";
     meta.field "Address::number" "number"].

Definition Employee : meta.type_descriptor :=
  meta.describe [Named]
    [meta.field "Employee::id" "id";
     meta.field "Employee::address" "address";
     meta.field "Employee::favorite_numbers" "favorite_numbers"].

Definition Tone : meta.enum_type :=
  {| meta.underlying_type := int_t;
     meta.std_meta_enum := None;
     meta.reflect_enum :=
       Some (meta.describe_enum
               [meta.case_ 0 "warm"; meta.case_ 1 "cool";
                meta.case_ 2 "neutral"]) |}.

(** An object by its members; the other pointers do not belong to it. *)
Fixpoint members (l : list (meta.member_pointer * value_t))
    (Ptr : meta.member_pointer) : value_t :=
  match l with
  | [] => Compound None None None
  | (p, v) :: rest => if (p =? Ptr)%string then v else members rest Ptr
  end.

Definition alice : value_t :=
  Compound None None
    (Some (Employee,
           members
             [("Named::name", std_string "Alice");
              ("Employee::id", int 7);
              ("Employee::address",
               Compound None None
                 (Some (Address,
                        members [("Address::street", std_string "Fifth");
                                 ("Address::number", int 9)])));
              ("Employee::favorite_numbers",
               std_vector [int 3; int 5; int 7])])).

(** A format for the floating-point values of the examples. *)
Definition any_format : floating_format := fun _ _ => "0".

(** A format that would need 129 characters, to exercise the failure of the
    conversion. *)
Definition long_format : floating_format :=
  fun _ _ => string_of_list_ascii (repeat "9"%char 129).

End serializer_tests.

(** * Properties *)

(** ** Strings and the writer *)

Lemma append_nil_r (s : string) : s ++ "" = s.
Proof. induction s as [|c s IH]; simpl; [reflexivity | now rewrite IH]. Qed.

Lemma append_assoc (s t u : string) : (s ++ t) ++ u = s ++ (t ++ u).
Proof. induction s as [|c s IH]; simpl; [reflexivity | now rewrite IH]. Qed.

Lemma append_length (s t : string) :
  String.length (s ++ t) = String.length s + String.length t.
Proof. induction s as [|c s IH]; simpl; [reflexivity | now rewrite IH]. Qed.

Lemma append_inv_head (s t u : string) : s ++ t = s ++ u -> t = u.
Proof.
  induction s as [|c s IH]; simpl; intros H; [exact H|].
  injection H as H. now apply IH.
Qed.

Lemma prefix_append (s t : string) : String.prefix s (s ++ t) = true.
Proof.
  induction s as [|c s IH]; simpl.
  - now destruct t.
  - destruct (ascii_dec c c) as [_|n]; [exact IH | now elim n].
Qed.

Lemma writer_eta (out : json_writer) : {| buffer := buffer out |} = out.
Proof. now destruct out. Qed.

Lemma write_nil (out : json_writer) : write "" out = out.
Proof. unfold write. rewrite append_nil_r. apply writer_eta. Qed.

Lemma write_write (s t : string) (out : json_writer) :
  write t (write s out) = write (s ++ t) out.
Proof. unfold write; simpl. now rewrite append_assoc. Qed.

Lemma write_char_write (c : ascii) (out : json_writer) :
  write_char c out = write (String c "") out.
Proof. reflexivity. Qed.

Lemma write_escaped_char_write (out : json_writer) (c : ascii) :
  write_escaped_char out c = write (escape c) out.
Proof.
  unfold write_escaped_char, escape, write, push_back.
  repeat match goal with |- context [if ?b then _ else _] => destruct b end;
    reflexivity.
Qed.

Lemma for_each_char_write (view : string) (out : json_writer) :
  for_each_char write_escaped_char view out = write (escaped view) out.
Proof.
  revert out; induction view as [|c rest IH]; intros out; simpl.
  - now rewrite write_nil.
  - now rewrite IH, write_escaped_char_write, write_write.
Qed.

(** [write_escaped] appends the quoted, escaped text. *)
Lemma write_escaped_write (view : string) (out : json_writer) :
  write_escaped view out = write (quoted (escaped view)) out.
Proof.
  unfold write_escaped.
  rewrite for_each_char_write, !write_char_write, !write_write.
  reflexivity.
Qed.

(** ** Completions *)

Lemma frame_nil {A} (r : completion A) : frame "" r = r.
Proof. destruct r as [a out|e out|d]; simpl; now rewrite ?writer_eta. Qed.

Lemma frame_frame {A} (s t : string) (r : completion A) :
  frame s (frame t r) = frame (s ++ t) r.
Proof. destruct r; simpl; now rewrite ?append_assoc. Qed.

Lemma appends_ret {A} (a : A) : appends (ret a).
Proof. intros out. unfold ret; simpl. now rewrite append_nil_r, writer_eta. Qed.

Lemma appends_throw {A} (e : serialization_error) : appends (@throw A e).
Proof. intros out. unfold throw; simpl. now rewrite append_nil_r, writer_eta. Qed.

Lemma appends_static_assert_fails {A} (d : string) :
  appends (@static_assert_fails A d).
Proof. intros out. reflexivity. Qed.

Lemma appends_write (s : string) : appends (call (write s)).
Proof. intros out. reflexivity. Qed.

Lemma appends_write_char (c : ascii) : appends (call (write_char c)).
Proof. intros out. reflexivity. Qed.

Lemma appends_write_escaped (s : string) : appends (call (write_escaped s)).
Proof.
  intros out. unfold call. now rewrite !write_escaped_write.
Qed.

Lemma appends_bind {A B} (m : M A) (k : A -> M B) :
  appends m -> (forall a, appends (k a)) -> appends (bind m k).
Proof.
  intros Hm Hk out. unfold bind. rewrite (Hm out).
  destruct (m {| buffer := "" |}) as [a o|e o|d]; simpl; try reflexivity.
  rewrite (Hk a), (Hk a o), frame_frame. reflexivity.
Qed.

Lemma appends_for_each {X A} (body : X -> A -> M A) (range : list X) :
  Forall (fun x => forall a, appends (body x a)) range ->
  forall a, appends (for_each body range a).
Proof.
  induction 1 as [|x rest Hx _ IH]; intros a; simpl.
  - apply appends_ret.
  - apply appends_bind; [apply Hx | exact IH].
Qed.

Create HintDb appends.
#[local] Hint Resolve appends_ret appends_throw appends_static_assert_fails
  appends_write appends_write_char appends_write_escaped : appends.

(** ** Induction on descriptors and values *)

Section TypeDescriptorInduction.

Variable P : meta.type_descriptor -> Prop.
Hypothesis P_describe :
  forall bases fields, Forall P bases -> P (meta.describe bases fields).

Lemma type_descriptor_induction : forall d, P d.
Proof.
  fix IH 1. intros [bases fields]. apply P_describe.
  induction bases as [|b rest IHrest]; constructor; [apply IH | exact IHrest].
Qed.

End TypeDescriptorInduction.

Section ValueInduction.

Variable P : value_t -> Prop.
Hypothesis P_Bool : forall b, P (Bool b).
Hypothesis P_Integral : forall T n, P (Integral T n).
Hypothesis P_Floating : forall T x, P (Floating T x).
Hypothesis P_Enum : forall E n, P (Enum E n).
Hypothesis P_Optional_none : P (Optional None).
Hypothesis P_Optional_some : forall held, P held -> P (Optional (Some held)).
Hypothesis P_Expected :
  forall has_value payload, P payload -> P (Expected has_value payload).
Hypothesis P_Variant : forall index alt, P alt -> P (Variant index alt).
Hypothesis P_Compound :
  forall view range description,
    match range with
    | Some (elements l) => Forall P l
    | Some (entries l) => Forall (fun pair => P (fst pair) /\ P (snd pair)) l
    | None => True
    end ->
    match description with
    | Some (_, object) => forall Ptr, P (object Ptr)
    | None => True
    end ->
    P (Compound view range description).

Lemma value_induction : forall value, P value.
Proof.
  fix IH 1. intros [b|T n|T x|E n|[held|]|has_value payload|index alt
                    |view range description].
  - apply P_Bool.
  - apply P_Integral.
  - apply P_Floating.
  - apply P_Enum.
  - apply P_Optional_some, IH.
  - apply P_Optional_none.
  - apply P_Expected, IH.
  - apply P_Variant, IH.
  - apply P_Compound.
    + destruct range as [[l|l]|]; [| |exact I].
      * induction l as [|x rest IHrest]; constructor;
          [apply IH | exact IHrest].
      * induction l as [|[k v] rest IHrest]; constructor;
          [split; apply IH | exact IHrest].
    + destruct description as [[d object]|]; [|exact I].
      intros Ptr. apply IH.
Qed.

End ValueInduction.

(** ** The dispatch, one kind of type at a time *)

Section Dispatch.

Variable floating_text : floating_format.

#[local] Abbreviation serialize := (serialize floating_text).

Lemma serialize_Bool b : serialize (Bool b) = serialize_boolean b.
Proof. reflexivity. Qed.

Lemma serialize_Integral T n : serialize (Integral T n) = serialize_integral n.
Proof. reflexivity. Qed.

Lemma serialize_Floating T x :
  serialize (Floating T x) = serialize_floating floating_text T x.
Proof. reflexivity. Qed.

Lemma serialize_Enum E n : serialize (Enum E n) = serialize_enum E n.
Proof. reflexivity. Qed.

Lemma serialize_Optional_none : serialize (Optional None) = call (write "null").
Proof. reflexivity. Qed.

Lemma serialize_Optional_some held :
  serialize (Optional (Some held)) = serialize held.
Proof. reflexivity. Qed.

Lemma serialize_Expected has_value payload :
  serialize (Expected has_value payload) =
  (call (write_char "{") ;;
   (call (write_escaped "state") ;;
    call (write_char ":") ;;
    serialize_string
      (std_string_view (if has_value then "value" else "error")) ;;
    call (write_char ",") ;;
    call (write_escaped (if has_value then "value" else "error")) ;;
    call (write_char ":") ;;
    serialize payload) ;;
   call (write_char "}")).
Proof. destruct has_value; reflexivity. Qed.

Lemma serialize_Variant index alt :
  serialize (Variant index alt) =
  (serialize_object_begin ;;
   first <- write_delimiter true ;;
   call (write_escaped "index") ;;
   call (write_char ":") ;;
   serialize_integral (static_cast size_t index) ;;
   first <- write_delimiter first ;;
   call (write_escaped "value") ;;
   call (write_char ":") ;;
   serialize alt ;;
   serialize_object_end).
Proof. reflexivity. Qed.

Lemma serialize_Compound_view view range description :
  serialize (Compound (Some view) range description) =
  call (write_escaped view).
Proof. reflexivity. Qed.

Lemma serialize_Compound_entries l description :
  serialize (Compound None (Some (entries l)) description) =
  serialize_map serialize l.
Proof. reflexivity. Qed.

Lemma serialize_Compound_elements l description :
  serialize (Compound None (Some (elements l)) description) =
  serialize_sequence serialize l.
Proof. reflexivity. Qed.

Lemma serialize_Compound_description descriptor object :
  serialize (Compound None None (Some (descriptor, object))) =
  serialize_object serialize descriptor object.
Proof. reflexivity. Qed.

Lemma serialize_Compound_none :
  serialize (Compound None None None) =
  static_assert_fails "Type is not serializable".
Proof. reflexivity. Qed.

Lemma to_json_serialize value :
  to_json floating_text value = serialize value {| buffer := "" |}.
Proof. reflexivity. Qed.

(** *** Every encoder only appends *)

Lemma appends_write_delimiter first : appends (write_delimiter first).
Proof.
  destruct first; unfold write_delimiter; auto with appends.
  apply appends_bind; auto with appends.
Qed.

Lemma appends_serialize_integral n : appends (serialize_integral n).
Proof.
  unfold serialize_integral. destruct (to_chars 64 (decimal n));
    auto with appends.
Qed.

Lemma appends_serialize_floating T x :
  appends (serialize_floating floating_text T x).
Proof.
  unfold serialize_floating. destruct (to_chars 128 (floating_text T x));
    auto with appends.
Qed.

Lemma appends_serialize_string value : appends (serialize_string value).
Proof.
  unfold serialize_string, unreachable. destruct (string_view value);
    auto with appends.
Qed.

Lemma appends_serialize_enum E n : appends (serialize_enum E n).
Proof.
  unfold serialize_enum.
  destruct (meta.name_of (meta.enum_description E) n);
    auto using appends_serialize_integral with appends.
Qed.

#[local] Hint Resolve appends_write_delimiter appends_serialize_integral
  appends_serialize_floating appends_serialize_string appends_serialize_enum
  : appends.

Ltac appends_step :=
  repeat first
    [ progress auto with appends
    | apply appends_bind; [|intros ?] ].

Lemma appends_for_each_field_impl {A} object
    (fn : string -> value_t -> A -> M A) :
  (forall name Ptr a, appends (fn name (object Ptr) a)) ->
  forall descriptor a, appends (for_each_field_impl object fn descriptor a).
Proof.
  intros Hfn descriptor.
  induction descriptor as [bases fields IH] using type_descriptor_induction.
  intros a. simpl. apply appends_bind.
  - apply appends_for_each. exact IH.
  - intros a'. apply appends_for_each.
    apply Forall_forall. intros f _ a''. apply Hfn.
Qed.

Lemma appends_serialize value : appends (serialize value).
Proof.
  induction value
    as [b|T n|T x|E n| |held IH|has_value payload IH|index alt IH
        |view range description IHrange IHobject] using value_induction.
  - rewrite serialize_Bool. apply appends_write.
  - rewrite serialize_Integral. auto with appends.
  - rewrite serialize_Floating. auto with appends.
  - rewrite serialize_Enum. auto with appends.
  - rewrite serialize_Optional_none. auto with appends.
  - rewrite serialize_Optional_some. exact IH.
  - rewrite serialize_Expected. appends_step.
  - rewrite serialize_Variant.
    unfold serialize_object_begin, serialize_object_end. appends_step.
  - destruct view as [view|].
    { rewrite serialize_Compound_view. auto with appends. }
    destruct range as [[l|l]|].
    + rewrite serialize_Compound_elements. unfold serialize_sequence.
      appends_step. apply appends_for_each.
      eapply Forall_impl; [|exact IHrange]. intros element He first.
      appends_step.
    + rewrite serialize_Compound_entries. unfold serialize_map.
      appends_step. apply appends_for_each.
      eapply Forall_impl; [|exact IHrange]. intros pair [_ Hv] first.
      destruct (detail.string_like (fst pair)); appends_step.
    + destruct description as [[descriptor object]|].
      * rewrite serialize_Compound_description.
        unfold serialize_object, serialize_object_begin,
          serialize_object_end, for_each_field.
        appends_step. apply appends_for_each_field_impl.
        intros name Ptr first. appends_step.
      * rewrite serialize_Compound_none. auto with appends.
Qed.

End Dispatch.

#[local] Hint Resolve appends_write_delimiter appends_serialize_integral
  appends_serialize_floating appends_serialize_string appends_serialize_enum
  appends_serialize : appends.

Lemma string_like_view (value : value_t) :
  detail.string_like value = true ->
  exists s range description, value = Compound (Some s) range description.
Proof.
  destruct value as [| | | | | | |[s|] range description]; try discriminate.
  intros _. now exists s, range, description.
Qed.

(** ** The branches marked unreachable are not reached

    The only rejections are the two [static_assert]s of the header. *)

Lemma never_ret {A} d (a : A) : never d (ret a).
Proof. intros out H. discriminate H. Qed.

Lemma never_call d f : never d (call f).
Proof. intros out H. discriminate H. Qed.

Lemma never_throw {A} d e : never d (@throw A e).
Proof. intros out H. discriminate H. Qed.

Lemma never_bind {A B} d (m : M A) (k : A -> M B) :
  never d m -> (forall a, never d (k a)) -> never d (bind m k).
Proof.
  intros Hm Hk out. unfold bind. specialize (Hm out).
  destruct (m out) as [a o|e o|d']; [apply Hk | discriminate |].
  intros H. apply Hm. now injection H as ->.
Qed.

Lemma never_for_each {X A} d (body : X -> A -> M A) (range : list X) :
  Forall (fun x => forall a, never d (body x a)) range ->
  forall a, never d (for_each body range a).
Proof.
  induction 1 as [|x rest Hx _ IH]; intros a; simpl.
  - apply never_ret.
  - apply never_bind; [apply Hx | exact IH].
Qed.

Lemma never_for_each_field_impl {A} d object
    (fn : string -> value_t -> A -> M A) :
  (forall name Ptr a, never d (fn name (object Ptr) a)) ->
  forall descriptor a, never d (for_each_field_impl object fn descriptor a).
Proof.
  intros Hfn descriptor.
  induction descriptor as [bases fields IH] using type_descriptor_induction.
  intros a. simpl. apply never_bind.
  - apply never_for_each. exact IH.
  - intros a'. apply never_for_each.
    apply Forall_forall. intros f _ a''. apply Hfn.
Qed.

Lemma never_write_delimiter d first : never d (write_delimiter first).
Proof.
  destruct first; unfold write_delimiter.
  - apply never_ret.
  - apply never_bind; [apply never_call | intros; apply never_ret].
Qed.

Lemma never_serialize_integral d n : never d (serialize_integral n).
Proof.
  unfold serialize_integral. destruct (to_chars 64 (decimal n));
    [apply never_call | apply never_throw].
Qed.

Create HintDb never.
#[local] Hint Resolve never_ret never_call never_throw never_write_delimiter
  never_serialize_integral : never.

Ltac never_step :=
  repeat first
    [ progress auto with never
    | apply never_bind; [|intros ?] ].

Section Reachability.

Variable floating_text : floating_format.

#[local] Abbreviation serialize := (serialize floating_text).

Lemma never_unreachable_serialize_string value :
  detail.string_like value = true ->
  never "unreachable" (serialize_string value).
Proof.
  intros H. destruct (string_like_view value H) as (s & r & d & ->).
  apply never_call.
Qed.

Theorem serialize_never_unreachable value :
  never "unreachable" (serialize value).
Proof.
  induction value
    as [b|T n|T x|E n| |held IH|has_value payload IH|index alt IH
        |view range description IHrange IHobject] using value_induction.
  - rewrite serialize_Bool. apply never_call.
  - rewrite serialize_Integral. auto with never.
  - rewrite serialize_Floating. unfold serialize_floating.
    destruct (to_chars 128 (floating_text T x)); auto with never.
  - rewrite serialize_Enum. unfold serialize_enum.
    destruct (meta.name_of (meta.enum_description E) n); auto with never.
  - rewrite serialize_Optional_none. auto with never.
  - rewrite serialize_Optional_some. exact IH.
  - rewrite serialize_Expected. never_step.
    + destruct has_value; apply never_unreachable_serialize_string;
        reflexivity.
  - rewrite serialize_Variant.
    unfold serialize_object_begin, serialize_object_end. never_step.
  - destruct view as [view|].
    { rewrite serialize_Compound_view. auto with never. }
    destruct range as [[l|l]|].
    + rewrite serialize_Compound_elements. unfold serialize_sequence.
      never_step. apply never_for_each.
      eapply Forall_impl; [|exact IHrange]. intros element He first.
      never_step.
    + rewrite serialize_Compound_entries. unfold serialize_map.
      never_step. apply never_for_each.
      eapply Forall_impl; [|exact IHrange]. intros pair [_ Hv] first.
      destruct (detail.string_like (fst pair)) eqn:Hkey.
      * never_step. now apply never_unreachable_serialize_string.
      * intros out H. discriminate H.
    + destruct description as [[descriptor object]|].
      * rewrite serialize_Compound_description.
        unfold serialize_object, serialize_object_begin,
          serialize_object_end, for_each_field.
        never_step. apply never_for_each_field_impl.
        intros name Ptr first. never_step.
      * rewrite serialize_Compound_none. intros out H. discriminate H.
Qed.

End Reachability.

(** ** [to_chars] always fits the integers of the supported widths *)

Lemma digits_length (fuel : nat) :
  forall (k : nat) (n : N) (acc : string),
    (0 < k)%nat -> (n < 10 ^ N.of_nat k)%N ->
    (String.length (digits fuel n acc) <= k + String.length acc)%nat.
Proof.
  induction fuel as [|fuel IH]; intros k n acc Hk Hn; simpl; [lia|].
  destruct (N.eqb_spec (n / 10) 0) as [Hq|Hq]; simpl; [lia|].
  destruct k as [|[|k]]; [lia| |].
  - exfalso. apply Hq. apply N.div_small. exact Hn.
  - specialize (IH (S k) (n / 10)%N (String (digit_char (n mod 10)) acc)).
    simpl in IH. assert (n / 10 < 10 ^ N.of_nat (S k))%N.
    { apply N.Div0.div_lt_upper_bound.
      rewrite <- N.pow_succ_r', <- Nat2N.inj_succ. exact Hn. }
    lia.
Qed.

Lemma decimal_N_length (n : N) :
  (n < 10 ^ 20)%N -> (String.length (decimal_N n) <= 20)%nat.
Proof.
  intros Hn. unfold decimal_N.
  pose proof (digits_length (S (N.size_nat n)) 20 n "") as H.
  simpl String.length in H. rewrite Nat.add_0_r in H. apply H; [lia|exact Hn].
Qed.

Lemma decimal_length (z : Z) :
  (- 2 ^ 64 < z < 2 ^ 64)%Z -> (String.length (decimal z) <= 21)%nat.
Proof.
  intros Hz. destruct z as [|p|p]; simpl.
  - lia.
  - pose proof (decimal_N_length (N.pos p)) as H.
    assert (N.pos p < 10 ^ 20)%N by (change (10 ^ 20)%N with 100000000000000000000%N; lia).
    lia.
  - pose proof (decimal_N_length (N.pos p)) as H.
    assert (N.pos p < 10 ^ 20)%N by (change (10 ^ 20)%N with 100000000000000000000%N; lia).
    lia.
Qed.

Lemma in_range_bounds (T : integral_type) (n : Z) :
  in_range T n -> (- 2 ^ 64 < n < 2 ^ 64)%Z.
Proof. unfold in_range. destruct T; simpl; lia. Qed.

Lemma static_cast_in_range (T : integral_type) (n : Z) :
  in_range T (static_cast T n).
Proof.
  unfold in_range, static_cast.
  destruct (is_signed T).
  - assert (0 < 2 ^ width T)%Z by (destruct T; simpl; lia).
    pose proof (Z.mod_pos_bound (n + 2 ^ (width T - 1)) (2 ^ width T) H).
    assert (2 ^ width T = 2 * 2 ^ (width T - 1))%Z
      by (destruct T; reflexivity).
    lia.
  - apply Z.mod_pos_bound. destruct T; simpl; lia.
Qed.

Lemma static_cast_id (T : integral_type) (n : Z) :
  in_range T n -> static_cast T n = n.
Proof.
  unfold in_range, static_cast. destruct (is_signed T); intros H.
  - assert (2 ^ width T = 2 * 2 ^ (width T - 1))%Z
      by (destruct T; reflexivity).
    rewrite Z.mod_small; lia.
  - now apply Z.mod_small.
Qed.

(** A 64-byte buffer holds every value of every integral type. *)
Lemma to_chars_in_range (T : integral_type) (n : Z) :
  in_range T n -> to_chars 64 (decimal n) = Some (decimal n).
Proof.
  intros H. unfold to_chars.
  pose proof (decimal_length n (in_range_bounds T n H)) as Hlen.
  destruct (Nat.leb_spec (String.length (decimal n)) 64); [reflexivity|lia].
Qed.

Lemma serialize_integral_in_range (T : integral_type) (n : Z) :
  in_range T n -> serialize_integral n = call (write (decimal n)).
Proof.
  intros H. unfold serialize_integral. now rewrite (to_chars_in_range T n H).
Qed.

(** ** [decimal] writes the number

    The model of [std::to_chars] for integers is the sign followed by the
    digits that denote the magnitude. *)

Lemma lt_pow2_size_nat (n : N) : (n < 2 ^ N.of_nat (N.size_nat n))%N.
Proof.
  destruct n as [|p]; [reflexivity|]. simpl N.size_nat.
  induction p as [p IH|p IH|]; simpl Pos.size_nat;
    rewrite ?Nat2N.inj_succ, ?N.pow_succ_r'; lia.
Qed.

Lemma digit_value_digit_char (d : N) :
  (d < 10)%N -> digit_value (digit_char d) = d.
Proof.
  intros H. unfold digit_value, digit_char.
  rewrite N_ascii_embedding; lia.
Qed.

Lemma parse_digits_app (s t : string) (acc : N) :
  parse_digits (s ++ t) acc = parse_digits t (parse_digits s acc).
Proof. revert acc; induction s as [|c s IH]; intros acc; simpl; auto. Qed.

Lemma digits_denote (fuel : nat) :
  forall (n : N) (acc : string),
    (0 < fuel)%nat -> (n < 2 ^ N.of_nat fuel)%N ->
    exists ds,
      digits fuel n acc = ds ++ acc /\
      forall k,
        parse_digits ds k = (k * 10 ^ N.of_nat (String.length ds) + n)%N.
Proof.
  induction fuel as [|fuel IH]; intros n acc Hfuel Hn; [lia|].
  simpl digits.
  assert (Hd : (n mod 10 < 10)%N) by (apply N.mod_lt; lia).
  pose proof (N.div_mod n 10 ltac:(lia)) as Hdiv.
  destruct (N.eqb_spec (n / 10) 0) as [Hq|Hq].
  - exists (String (digit_char (n mod 10)) ""). split; [reflexivity|].
    intros k. cbn [parse_digits String.length].
    change (N.of_nat 1) with 1%N.
    rewrite N.pow_1_r, digit_value_digit_char by exact Hd. lia.
  - assert (Hn' : (n / 10 < 2 ^ N.of_nat fuel)%N).
    { apply N.Div0.div_lt_upper_bound.
      rewrite Nat2N.inj_succ, N.pow_succ_r' in Hn. lia. }
    assert (Hfuel' : (0 < fuel)%nat).
    { destruct fuel; [simpl in Hn'; lia | lia]. }
    destruct (IH (n / 10)%N (String (digit_char (n mod 10)) acc) Hfuel' Hn')
      as (ds & Hds & Hparse).
    exists (ds ++ String (digit_char (n mod 10)) ""). split.
    + rewrite Hds, append_assoc. reflexivity.
    + intros k. rewrite parse_digits_app, Hparse, append_length.
      cbn [parse_digits String.length].
      rewrite digit_value_digit_char by exact Hd.
      rewrite Nat.add_1_r, Nat2N.inj_succ, N.pow_succ_r'. lia.
Qed.

Lemma parse_digits_decimal_N (n : N) : parse_digits (decimal_N n) 0 = n.
Proof.
  unfold decimal_N.
  destruct (digits_denote (S (N.size_nat n)) n "") as (ds & Hds & Hparse).
  - lia.
  - pose proof (lt_pow2_size_nat n). rewrite Nat2N.inj_succ, N.pow_succ_r'.
    lia.
  - rewrite Hds, append_nil_r, Hparse. lia.
Qed.

(** The text of an integer: a minus sign when it is negative, then digits
    that read back as its magnitude. *)
Theorem decimal_denotes (z : Z) :
  decimal z = (if (z <? 0)%Z then "-" else "") ++ decimal_N (Z.abs_N z) /\
  parse_digits (decimal_N (Z.abs_N z)) 0 = Z.abs_N z.
Proof.
  split; [now destruct z | apply parse_digits_decimal_N].
Qed.

(** ** Strings: escaping and its inverse *)

Lemma decode_body_escaped (s rest : string) :
  decode_body (escaped s ++ String quote rest) = Some (s, rest).
Proof.
  induction s as [|c s IH]; [reflexivity|].
  simpl escaped. unfold escape.
  destruct (Ascii.eqb_spec c backslash) as [->|Hb].
  { simpl. unfold backslash, quote in *. simpl. now rewrite IH. }
  destruct (Ascii.eqb_spec c quote) as [->|Hq].
  { simpl. unfold backslash, quote in *. simpl. now rewrite IH. }
  destruct (Ascii.eqb_spec c newline) as [->|Hn].
  { simpl. unfold backslash, quote in *. simpl. now rewrite IH. }
  destruct (Ascii.eqb_spec c carriage_return) as [->|Hr].
  { simpl. unfold backslash, quote in *. simpl. now rewrite IH. }
  destruct (Ascii.eqb_spec c tab) as [->|Ht].
  { simpl. unfold backslash, quote in *. simpl. now rewrite IH. }
  simpl.
  destruct (Ascii.eqb_spec c quote); [contradiction|].
  destruct (Ascii.eqb_spec c backslash); [contradiction|].
  now rewrite IH.
Qed.

Lemma decode_string_quoted (s rest : string) :
  decode_string (quoted (escaped s) ++ rest) = Some (s, rest).
Proof.
  unfold quoted. simpl. rewrite append_assoc. simpl.
  unfold quote at 1. simpl. apply decode_body_escaped.
Qed.

Section Claims.

Variable floating_text : floating_format.

#[local] Abbreviation serialize := (serialize floating_text).
#[local] Abbreviation to_json := (to_json floating_text).

(** C3: a string-like value is encoded as its characters between double
    quotes, where backslash, double quote, newline, carriage return and tab
    become the two-character sequences of the table and every other
    character is copied; decoding the escape sequences of the output gives
    the string back. *)
Theorem write_escaped_round_trip (value : value_t) :
  detail.string_like value = true ->
  exists s,
    string_view value = Some s /\
    (forall out,
        serialize value out = Normal tt (write (quoted (escaped s)) out)) /\
    to_json value = Normal tt {| buffer := quoted (escaped s) |} /\
    (forall c rest,
        escaped (String c rest) =
        (if Ascii.eqb c backslash then String backslash (String backslash "")
         else if Ascii.eqb c quote then String backslash (String quote "")
         else if Ascii.eqb c newline then String backslash "n"
         else if Ascii.eqb c carriage_return then String backslash "r"
         else if Ascii.eqb c tab then String backslash "t"
         else String c "") ++ escaped rest) /\
    escaped "" = "" /\
    (forall rest, decode_string (quoted (escaped s) ++ rest) = Some (s, rest)).
Proof.
  intros H. destruct (string_like_view value H) as (s & range & d & ->).
  exists s. split; [reflexivity|].
  assert (Hout : forall out,
             serialize (Compound (Some s) range d) out =
             Normal tt (write (quoted (escaped s)) out)).
  { intros out. rewrite serialize_Compound_view. unfold call.
    now rewrite write_escaped_write. }
  split; [exact Hout|]. split; [apply Hout|].
  split; [reflexivity|]. split; [reflexivity|].
  apply decode_string_quoted.
Qed.

(** *** Helpers shared by the claims *)

Lemma frame_to_json (value : value_t) (out : json_writer) :
  serialize value out = frame (buffer out) (to_json value).
Proof. apply appends_serialize. Qed.

Lemma frame_surround {A} (s before after : string) (r : completion A) :
  frame s (surround before after r) = surround (s ++ before) after r.
Proof. destruct r; simpl; now rewrite ?append_assoc. Qed.

(** Text, then an encoder that only appends, then text. *)
Lemma bind_write_surround (before after : string) (m : M unit)
    (out : json_writer) :
  appends m ->
  (call (write before) ;; m ;; call (write after)) out =
  frame (buffer out) (surround before after (m {| buffer := "" |})).
Proof.
  intros Hm. unfold bind, call. rewrite (Hm (write before out)).
  destruct (m {| buffer := "" |}) as [[] o|e o|d]; unfold write; simpl;
    now rewrite ?append_assoc.
Qed.

(** C4: an absent optional is encoded as [null]; an optional that holds [x]
    is encoded exactly as [x] is, on every writer and by [to_json]. *)
Theorem optional_is_transparent :
  (forall out, serialize (Optional None) out = Normal tt (write "null" out)) /\
  to_json (Optional None) = Normal tt {| buffer := "null" |} /\
  (forall x out, serialize (Optional (Some x)) out = serialize x out) /\
  (forall x, to_json (Optional (Some x)) = to_json x) /\
  (forall x, encode floating_text (Optional (Some x)) = encode floating_text x).
Proof.
  repeat split; reflexivity.
Qed.

Ltac writes_normal_form :=
  repeat (progress
            (unfold bind, call, serialize_object_begin, serialize_object_end,
               write_delimiter, ret, serialize_string, std_string_view,
               string_view;
             cbv beta iota));
  rewrite ?write_escaped_write, ?write_char_write, ?write_write.

Ltac texts_equal :=
  unfold write, write_char, push_back; simpl;
  rewrite ?append_assoc; simpl; rewrite ?append_assoc; reflexivity.

(** C5: a result that holds a success payload is encoded as the object with
    the field [state] set to the string [value] and the field [value] set to
    the encoding of the payload; one that holds an error payload, with
    [state] set to [error] and the field [error]; nothing else is in the
    object. *)
Theorem expected_is_tagged_object (payload : value_t) (out : json_writer) :
  serialize (Expected true payload) out =
  frame (buffer out)
    (surround ("{" ++ quoted "state" ++ ":" ++ quoted "value" ++ ","
                   ++ quoted "value" ++ ":") "}" (to_json payload)) /\
  serialize (Expected false payload) out =
  frame (buffer out)
    (surround ("{" ++ quoted "state" ++ ":" ++ quoted "error" ++ ","
                   ++ quoted "error" ++ ":") "}" (to_json payload)).
Proof.
  split; rewrite serialize_Expected; writes_normal_form;
    rewrite frame_to_json;
    destruct (to_json payload) as [[] o|e o|d]; texts_equal.
Qed.

(** C6: a variant that holds alternative [index] with payload [alt] is
    encoded as the object whose first field, [index], is the zero-based
    index in decimal and whose second field, [value], is the encoding of the
    payload. *)
Theorem variant_is_index_value_object (index : Z) (alt : value_t)
    (out : json_writer) :
  in_range size_t index ->
  serialize (Variant index alt) out =
  frame (buffer out)
    (surround ("{" ++ quoted "index" ++ ":" ++ decimal index ++ ","
                   ++ quoted "value" ++ ":") "}" (to_json alt)).
Proof.
  intros Hindex. rewrite serialize_Variant.
  rewrite (static_cast_id size_t index Hindex).
  rewrite (serialize_integral_in_range size_t index Hindex).
  writes_normal_form. rewrite frame_to_json.
  destruct (to_json alt) as [[] o|e o|d]; texts_equal.
Qed.

(** C7: an enumeration value is encoded as the quoted name that [name_of]
    finds in the description of its type, and as the decimal text of its
    underlying integer when [name_of] finds none; it returns in both
    cases. *)
Theorem enum_is_name_or_underlying_integer (E : meta.enum_type) (n : Z)
    (out : json_writer) :
  serialize (Enum E n) out =
  match meta.name_of (meta.enum_description E) n with
  | Some name => Normal tt (write (quoted (escaped name)) out)
  | None =>
      Normal tt (write (decimal (static_cast (meta.underlying_type E) n)) out)
  end.
Proof.
  rewrite serialize_Enum. unfold serialize_enum.
  destruct (meta.name_of (meta.enum_description E) n) as [name|].
  - unfold call. now rewrite write_escaped_write.
  - rewrite (serialize_integral_in_range (meta.underlying_type E));
      [reflexivity | apply static_cast_in_range].
Qed.

(** C9: an integer is converted in a buffer of 64 bytes and a floating-point
    value in one of 128 bytes.  When the text fits, it is appended; when it
    does not, and only then, a [serialization_error] with a message and the
    source location of the conversion is thrown and the writer is left as it
    was. *)
Theorem conversion_failure_is_reported (out : json_writer) :
  (forall T n,
      serialize (Integral T n) out =
      if (String.length (decimal n) <=? 64)%nat
      then Normal tt (write (decimal n) out)
      else Throw {| message := "integral conversion failed";
                    where_ := here 408 "serialize_integral" |} out) /\
  (forall T x,
      serialize (Floating T x) out =
      if (String.length (floating_text T x) <=? 128)%nat
      then Normal tt (write (floating_text T x) out)
      else Throw {| message := "floating conversion failed";
                    where_ := here 418 "serialize_floating" |} out) /\
  (forall T n,
      is_throw (serialize (Integral T n) out) = true <->
      to_chars 64 (decimal n) = None) /\
  (forall T x,
      is_throw (serialize (Floating T x) out) = true <->
      to_chars 128 (floating_text T x) = None) /\
  (forall value e out',
      is_integral value || is_floating_point value = true ->
      serialize value out = Throw e out' ->
      out' = out /\ message e <> "" /\ line (where_ e) <> 0%N).
Proof.
  assert (HI : forall T n,
             serialize (Integral T n) out =
             if (String.length (decimal n) <=? 64)%nat
             then Normal tt (write (decimal n) out)
             else Throw {| message := "integral conversion failed";
                           where_ := here 408 "serialize_integral" |} out).
  { intros T n. rewrite serialize_Integral.
    unfold serialize_integral, to_chars.
    now destruct (String.length (decimal n) <=? 64)%nat. }
  assert (HF : forall T x,
             serialize (Floating T x) out =
             if (String.length (floating_text T x) <=? 128)%nat
             then Normal tt (write (floating_text T x) out)
             else Throw {| message := "floating conversion failed";
                           where_ := here 418 "serialize_floating" |} out).
  { intros T x. rewrite serialize_Floating.
    unfold serialize_floating, to_chars.
    now destruct (String.length (floating_text T x) <=? 128)%nat. }
  split; [exact HI|]. split; [exact HF|].
  split; [|split].
  - intros T n. rewrite HI. unfold to_chars.
    destruct (String.length (decimal n) <=? 64)%nat; simpl;
      split; congruence.
  - intros T x. rewrite HF. unfold to_chars.
    destruct (String.length (floating_text T x) <=? 128)%nat; simpl;
      split; congruence.
  - intros value e out' Hkind Hthrow.
    destruct value as [b|T n|T x| | | | |]; try discriminate Hkind.
    + rewrite serialize_Bool in Hthrow. discriminate Hthrow.
    + rewrite HI in Hthrow.
      destruct (String.length (decimal n) <=? 64)%nat; [discriminate|].
      injection Hthrow as <- <-. simpl. repeat split; discriminate.
    + rewrite HF in Hthrow.
      destruct (String.length (floating_text T x) <=? 128)%nat;
        [discriminate|].
      injection Hthrow as <- <-. simpl. repeat split; discriminate.
Qed.

(** C10: [serialize] only appends.  Its completion on a writer is its
    completion on the empty writer after what the writer held; when it
    returns, the old buffer is a prefix of the new one and the suffix is the
    text of [to_json], the same for every writer. *)
Theorem serialize_only_appends (value : value_t) (out : json_writer) :
  serialize value out = frame (buffer out) (to_json value) /\
  to_json value = serialize value {| buffer := "" |} /\
  (forall out',
      serialize value out = Normal tt out' ->
      exists suffix,
        buffer out' = buffer out ++ suffix /\
        String.prefix (buffer out) (buffer out') = true /\
        to_json value = Normal tt {| buffer := suffix |} /\
        forall other,
          serialize value other =
          Normal tt {| buffer := buffer other ++ suffix |}).
Proof.
  split; [apply frame_to_json|]. split; [reflexivity|].
  intros out' H. rewrite frame_to_json in H.
  destruct (to_json value) as [[] o|e o|d] eqn:Hjson; try discriminate H.
  simpl in H. injection H as <-. exists (buffer o). simpl.
  split; [reflexivity|]. split; [apply prefix_append|].
  split; [now rewrite writer_eta|].
  intros other. rewrite frame_to_json, Hjson. reflexivity.
Qed.

Lemma appends_serialize_sequence_body (range : list value_t) :
  appends (for_each (fun element first =>
                       first <- write_delimiter first ;;
                       serialize element ;;
                       ret first) range true ;;
           call (write_char "]")).
Proof.
  apply appends_bind; [|intros; auto with appends].
  apply appends_for_each. apply Forall_forall. intros element _ first.
  repeat (apply appends_bind; [|intros ?]); auto with appends.
Qed.

(** The array form starts with an opening bracket. *)
Lemma serialize_sequence_opens (range : list value_t) (out : json_writer) :
  match writer_of (serialize_sequence serialize range out) with
  | Some out' => exists rest, buffer out' = buffer out ++ String "[" rest
  | None => True
  end.
Proof.
  unfold serialize_sequence.
  unfold bind at 1. unfold call at 1.
  rewrite (appends_serialize_sequence_body range).
  match goal with |- context [frame _ ?r] => destruct r as [a o|e o|d] end;
    simpl; try exact I; exists (buffer o);
    unfold push_back; now rewrite append_assoc.
Qed.

(** C1: the encoder applies the rule of the first category, in the priority
    order boolean, integer, floating-point, string-like, enumeration,
    map-like, sequence-like, optional, result, variant, reflectable-object,
    for which the type of the value qualifies; a type that no category
    accepts is rejected.  A value whose type is string-like and also a range
    is encoded as a quoted, escaped string and never as an array. *)
Theorem dispatch_applies_first_category (value : value_t) (out : json_writer) :
  serialize value out = rule floating_text (Category.classify value) value out
  /\
  (detail.string_like value = true ->
   ranges_range value = true ->
   Category.classify value = Some Category.string_like /\
   exists s,
     string_view value = Some s /\
     serialize value out = Normal tt (write (quoted (escaped s)) out) /\
     forall range,
       serialize value out <> serialize_sequence serialize range out).
Proof.
  split.
  - destruct value as [b|T n|T x|E n|[held|]|has_value payload|index alt
                       |[view|] [[l|l]|] [[d object]|]];
      try reflexivity.
    + rewrite serialize_Expected. unfold Category.classify; simpl.
      destruct has_value; writes_normal_form;
        destruct (serialize payload _) as [[] o|e o|msg]; texts_equal.
    + rewrite serialize_Variant. unfold Category.classify; simpl.
      unfold serialize_object_begin, serialize_object_end, write_delimiter.
      unfold bind, call, ret.
      rewrite ?write_escaped_write, ?write_char_write, ?write_write.
      destruct (serialize_integral (static_cast size_t index) _)
        as [[] o|e o|msg]; try reflexivity.
      rewrite ?write_escaped_write, ?write_char_write, ?write_write.
      destruct (serialize alt _) as [[] o'|e o'|msg]; reflexivity.
    + rewrite serialize_Compound_view. unfold call.
      now rewrite write_escaped_write.
    + rewrite serialize_Compound_view. unfold call.
      now rewrite write_escaped_write.
    + rewrite serialize_Compound_view. unfold call.
      now rewrite write_escaped_write.
    + rewrite serialize_Compound_view. unfold call.
      now rewrite write_escaped_write.
    + rewrite serialize_Compound_view. unfold call.
      now rewrite write_escaped_write.
    + rewrite serialize_Compound_view. unfold call.
      now rewrite write_escaped_write.
  - intros Hstring Hrange.
    destruct (string_like_view value Hstring) as (s & range & d & ->).
    split; [reflexivity|]. exists s. split; [reflexivity|].
    assert (Hs : serialize (Compound (Some s) range d) out =
                 Normal tt (write (quoted (escaped s)) out)).
    { rewrite serialize_Compound_view. unfold call.
      now rewrite write_escaped_write. }
    split; [exact Hs|].
    intros l Heq. rewrite Hs in Heq.
    pose proof (serialize_sequence_opens l out) as Hopen.
    rewrite <- Heq in Hopen. simpl in Hopen.
    destruct Hopen as [rest Hrest].
    apply append_inv_head in Hrest. discriminate Hrest.
Qed.

(** *** Objects *)

Lemma bind_ext {A B} (m m' : M A) (k k' : A -> M B) (out : json_writer) :
  m out = m' out -> (forall a o, k a o = k' a o) ->
  bind m k out = bind m' k' out.
Proof.
  intros Hm Hk. unfold bind. rewrite Hm. destruct (m' out); auto.
Qed.

Lemma for_each_app {X A} (body : X -> A -> M A) (l1 l2 : list X) :
  forall a out,
    for_each body (l1 ++ l2) a out =
    bind (for_each body l1 a) (for_each body l2) out.
Proof.
  induction l1 as [|x l1 IH]; intros a out; simpl; [reflexivity|].
  unfold bind at 1 2 3. destruct (body x a out) as [a' o| |]; try reflexivity.
  apply IH.
Qed.

Lemma for_each_field_impl_flattened {A} object
    (fn : string -> value_t -> A -> M A) (descriptor : meta.type_descriptor) :
  forall a out,
    for_each_field_impl object fn descriptor a out =
    for_each (fun f a => fn (meta.name f) (get f object) a)
             (flattened_fields descriptor) a out.
Proof.
  induction descriptor as [bases fields IH] using type_descriptor_induction.
  intros a out. simpl. rewrite for_each_app.
  apply bind_ext; [|reflexivity].
  clear fields. revert a out.
  induction IH as [|base rest Hbase _ IHrest]; intros a out; simpl;
    [reflexivity|].
  rewrite for_each_app. apply bind_ext; [apply Hbase | exact IHrest].
Qed.

Lemma delimited_comma_separated (members : list string) :
  delimited true members = comma_separated members.
Proof.
  destruct members as [|m rest]; [reflexivity|].
  change (delimited true (m :: rest)) with (m ++ delimited false rest).
  revert m. induction rest as [|m' rest IH]; intros m.
  - simpl. apply append_nil_r.
  - change (comma_separated (m :: m' :: rest))
      with (m ++ "," ++ comma_separated (m' :: rest)).
    rewrite <- IH. reflexivity.
Qed.

Lemma encode_Some (value : value_t) (text : string) :
  encode floating_text value = Some text <->
  to_json value = Normal tt {| buffer := text |}.
Proof.
  unfold encode. destruct (to_json value) as [[] [b]|e o|d]; simpl;
    split; intros H; try discriminate H; now inversion H.
Qed.

(** The loop of [serialize_object] over a list of fields whose values
    encode to [texts]. *)
Lemma members_loop object (fs : list meta.field_descriptor) :
  forall texts,
    Forall2 (fun f text => encode floating_text (get f object) = Some text)
            fs texts ->
    forall first out,
      for_each (fun f first =>
                  first <- write_delimiter first ;;
                  call (write_escaped (meta.name f)) ;;
                  call (write_char ":") ;;
                  serialize (get f object) ;;
                  ret first) fs first out =
      Normal (first && is_empty fs)
        (write (delimited first
                  (map (fun p => member_text (meta.name (fst p)) (snd p))
                       (combine fs texts))) out).
Proof.
  induction 1 as [|f text fs texts Hf _ IH]; intros first out; simpl.
  - rewrite write_nil, andb_true_r. reflexivity.
  - apply encode_Some in Hf.
    unfold bind at 1. unfold bind at 1.
    assert (Hbody :
              bind (write_delimiter first)
                (fun first0 =>
                   call (write_escaped (meta.name f)) ;;
                   call (write_char ":") ;;
                   serialize (get f object) ;; ret first0) out =
              Normal false
                (write ((if first then "" else ",")
                          ++ member_text (meta.name f) text) out)).
    { destruct first; writes_normal_form; rewrite frame_to_json, Hf;
        unfold member_text; texts_equal. }
    unfold bind in Hbody. unfold bind. rewrite Hbody.
    rewrite IH, write_write, andb_false_r.
    now rewrite append_assoc.
Qed.

(** C2: the fields of a reflectable object are visited, and so emitted, in
    the flattened order: the fields of every base, each base flattened in
    turn and the bases taken in declared order, and then the type's own
    fields in declared order.  With one base that contributes [f1] and own
    fields [f2] and [f3] the order is [f1], [f2], [f3]. *)
Theorem object_fields_in_flattened_order
    (descriptor : meta.type_descriptor)
    (object : meta.member_pointer -> value_t) :
  (forall (A : Type) (fn : string -> value_t -> A -> M A) a out,
      for_each_field object descriptor fn a out =
      for_each (fun f a => fn (meta.name f) (get f object) a)
               (flattened_fields descriptor) a out) /\
  (forall out,
      serialize (Compound None None (Some (descriptor, object))) out =
      (serialize_object_begin ;;
       for_each (fun f first =>
                   first <- write_delimiter first ;;
                   call (write_escaped (meta.name f)) ;;
                   call (write_char ":") ;;
                   serialize (get f object) ;;
                   ret first) (flattened_fields descriptor) true ;;
       serialize_object_end) out) /\
  (forall texts,
      Forall2 (fun f text => encode floating_text (get f object) = Some text)
              (flattened_fields descriptor) texts ->
      encode floating_text (Compound None None (Some (descriptor, object))) =
      Some ("{" ++ comma_separated
                     (map (fun p => member_text (meta.name (fst p)) (snd p))
                          (combine (flattened_fields descriptor) texts))
                ++ "}")) /\
  (forall bases fields,
      descriptor = meta.describe bases fields ->
      flattened_fields descriptor =
      (flat_map flattened_fields bases ++ fields)%list) /\
  (forall f1 f2 f3,
      descriptor = meta.describe [meta.describe [] [f1]] [f2; f3] ->
      flattened_fields descriptor = [f1; f2; f3]).
Proof.
  split; [|split; [|split; [|split]]].
  - intros A fn a out. apply for_each_field_impl_flattened.
  - intros out. rewrite serialize_Compound_description.
    unfold serialize_object, for_each_field.
    apply bind_ext; [reflexivity|]. intros _ o.
    apply bind_ext; [apply for_each_field_impl_flattened | reflexivity].
  - intros texts Htexts. apply encode_Some.
    rewrite to_json_serialize, serialize_Compound_description.
    unfold serialize_object, for_each_field, serialize_object_begin,
      serialize_object_end.
    unfold bind at 1. unfold call at 1. unfold bind at 1.
    rewrite for_each_field_impl_flattened.
    rewrite (members_loop object _ texts Htexts).
    rewrite delimited_comma_separated.
    unfold call. texts_equal.
  - intros bases fields ->. reflexivity.
  - intros f1 f2 f3 ->. reflexivity.
Qed.

End Claims.

(** ** Enumerations: [name_of] and [value_of] *)

Section FirstMatch.

Context {R : Type}.
Variable matches : meta.enum_case_descriptor -> bool.
Variable pick : meta.enum_case_descriptor -> R.

Lemma fold_assign_Some (l : list meta.enum_case_descriptor) (r : R) :
  fold_left
    (fun result descriptor =>
       if negb (meta.has_value result) && matches descriptor
       then Some (pick descriptor)
       else result) l (Some r) = Some r.
Proof. induction l as [|c l IH]; simpl; [reflexivity | exact IH]. Qed.

Lemma fold_assign_None (l : list meta.enum_case_descriptor) :
  fold_left
    (fun result descriptor =>
       if negb (meta.has_value result) && matches descriptor
       then Some (pick descriptor)
       else result) l None = option_map pick (find matches l).
Proof.
  induction l as [|c l IH]; simpl; [reflexivity|].
  destruct (matches c); simpl.
  - apply fold_assign_Some.
  - exact IH.
Qed.

End FirstMatch.

Lemma name_of_find (d : meta.enum_descriptor) (value : Z) :
  meta.name_of d value =
  option_map meta.case_name
    (find (fun c => (meta.case_value c =? value)%Z) (meta.cases d)).
Proof. unfold meta.name_of. apply fold_assign_None. Qed.

Lemma value_of_find (d : meta.enum_descriptor) (name : string) :
  meta.value_of d name =
  option_map meta.case_value
    (find (fun c => (meta.case_name c =? name)%string) (meta.cases d)).
Proof. unfold meta.value_of. apply fold_assign_None. Qed.

(** With no two cases sharing a key, the case found for a key is any case
    that has it. *)
Lemma find_unique {K : Type} (key : meta.enum_case_descriptor -> K)
    (eqb : K -> K -> bool)
    (eqb_spec : forall x y, reflect (x = y) (eqb x y))
    (l : list meta.enum_case_descriptor) (c : meta.enum_case_descriptor) :
  NoDup (map key l) -> In c l ->
  find (fun c' => eqb (key c') (key c)) l = Some c.
Proof.
  induction l as [|x l IH]; intros Hnd Hin; [destruct Hin|].
  inversion Hnd as [|? ? Hx Hl]; subst. simpl.
  destruct (eqb_spec (key x) (key c)) as [Heq|Hne].
  - destruct Hin as [->|Hin]; [reflexivity|].
    exfalso. apply Hx. rewrite Heq. now apply in_map.
  - destruct Hin as [->|Hin]; [now elim Hne|]. now apply IH.
Qed.

(** C8 (as amended): [name_of] returns the name of the first case, in
    declaration order, whose discriminant is the value, and [value_of] the
    discriminant of the first case whose name is the name; each returns
    nothing when no case matches.  [value_of] undoes [name_of] when no two
    cases share a name, and [name_of] undoes [value_of] when no two cases
    share a discriminant. *)
Theorem enum_lookup_first_match (d : meta.enum_descriptor) :
  (forall value,
      meta.name_of d value =
      option_map meta.case_name
        (find (fun c => (meta.case_value c =? value)%Z) (meta.cases d))) /\
  (forall name,
      meta.value_of d name =
      option_map meta.case_value
        (find (fun c => (meta.case_name c =? name)%string) (meta.cases d))) /\
  (NoDup (map meta.case_name (meta.cases d)) ->
   forall value name,
     meta.name_of d value = Some name -> meta.value_of d name = Some value) /\
  (NoDup (map meta.case_value (meta.cases d)) ->
   forall name value,
     meta.value_of d name = Some value -> meta.name_of d value = Some name).
Proof.
  split; [intros; apply name_of_find|].
  split; [intros; apply value_of_find|].
  split.
  - intros Hnd value name H. rewrite name_of_find in H.
    destruct (find _ (meta.cases d)) as [c|] eqn:Hfind; [|discriminate H].
    injection H as <-. apply find_some in Hfind as [Hin Hv].
    apply Z.eqb_eq in Hv. rewrite value_of_find.
    rewrite (find_unique meta.case_name String.eqb String.eqb_spec
               (meta.cases d) c Hnd Hin).
    simpl. now rewrite Hv.
  - intros Hnd name value H. rewrite value_of_find in H.
    destruct (find _ (meta.cases d)) as [c|] eqn:Hfind; [|discriminate H].
    injection H as <-. apply find_some in Hfind as [Hin Hn].
    apply String.eqb_eq in Hn. rewrite name_of_find.
    rewrite (find_unique meta.case_value Z.eqb Z.eqb_spec
               (meta.cases d) c Hnd Hin).
    simpl. now rewrite Hn.
Qed.

(** C8, as stated, fails: two cases share the discriminant 0, [value_of]
    maps the second name to 0, and [name_of] maps 0 back to the first
    name. *)
Lemma enum_lookup_not_inverse :
  meta.value_of
    (meta.describe_enum [meta.case_ 0 "A"; meta.case_ 0 "B"]) "B" = Some 0%Z /\
  meta.name_of
    (meta.describe_enum [meta.case_ 0 "A"; meta.case_ 0 "B"]) 0 = Some "A" /\
  ~ (forall (d : meta.enum_descriptor) (name : string) (value : Z),
        meta.value_of d name = Some value <->
        meta.name_of d value = Some name).
Proof.
  split; [reflexivity|]. split; [reflexivity|].
  intros H.
  specialize (H (meta.describe_enum [meta.case_ 0 "A"; meta.case_ 0 "B"])
                "B" 0%Z).
  destruct H as [H _]. specialize (H eq_refl). discriminate H.
Qed.

(** ** The repository's tests, on the model *)

Module serializer_tests_hold.

Import serializer_tests.

Example test_plain_types :
  serialize any_format (int 42) {| buffer := "" |}
  = Normal tt {| buffer := "42" |} /\
  serialize any_format (Bool true) {| buffer := "" |}
  = Normal tt {| buffer := "true" |}.
Proof. split; reflexivity. Qed.

Example test_strings_and_ranges :
  to_json any_format (std_string "hello")
  = Normal tt {| buffer := quoted "hello" |} /\
  to_json any_format (std_vector [int 1; int 2; int 3])
  = Normal tt {| buffer := "[1,2,3]" |}.
Proof. split; reflexivity. Qed.

Example test_struct_and_inheritance :
  to_json any_format alice
  = Normal tt
      {| buffer :=
           "{" ++ quoted "name" ++ ":" ++ quoted "Alice" ++ ","
               ++ quoted "id" ++ ":7,"
               ++ quoted "address" ++ ":{"
               ++ quoted "street" ++ ":" ++ quoted "Fifth" ++ ","
               ++ quoted "number" ++ ":9},"
               ++ quoted "favorite_numbers" ++ ":[3,5,7]}" |}.
Proof. reflexivity. Qed.

Example test_enums :
  to_json any_format (Enum Tone 1) = Normal tt {| buffer := quoted "cool" |}.
Proof. reflexivity. Qed.

Example test_maps_optionals_expected :
  to_json any_format (std_map [(std_string "a", int 1); (std_string "b", int 2)])
  = Normal tt
      {| buffer := "{" ++ quoted "a" ++ ":1," ++ quoted "b" ++ ":2}" |} /\
  to_json any_format (Optional (Some (int 5))) = Normal tt {| buffer := "5" |} /\
  to_json any_format (Optional None) = Normal tt {| buffer := "null" |} /\
  to_json any_format (Expected true (int 12))
  = Normal tt
      {| buffer := "{" ++ quoted "state" ++ ":" ++ quoted "value" ++ ","
                       ++ quoted "value" ++ ":12}" |} /\
  to_json any_format (Expected false (std_string "boom"))
  = Normal tt
      {| buffer := "{" ++ quoted "state" ++ ":" ++ quoted "error" ++ ","
                       ++ quoted "error" ++ ":" ++ quoted "boom" ++ "}" |}.
Proof. repeat split; reflexivity. Qed.

Example test_variant :
  to_json any_format (Variant 0 (int 3))
  = Normal tt
      {| buffer := "{" ++ quoted "index" ++ ":0," ++ quoted "value" ++ ":3}" |}
  /\
  to_json any_format (Variant 1 (std_string "hi"))
  = Normal tt
      {| buffer := "{" ++ quoted "index" ++ ":1," ++ quoted "value" ++ ":"
                       ++ quoted "hi" ++ "}" |}.
Proof. split; reflexivity. Qed.

(** Not a test of the repository: the conversion failure, which no value of
    the supported types reaches with the library's own format. *)
Example conversion_failure_leaves_writer :
  serialize long_format
    (std_vector [int 1; Floating double_t (S754_zero false)])
    {| buffer := "" |}
  = Throw {| message := "floating conversion failed";
             where_ := here 418 "serialize_floating" |}
          {| buffer := "[1," |}.
Proof. reflexivity. Qed.

End serializer_tests_hold.

(** ** The theorems at concrete inputs *)

Import serializer_tests.

(** A [std::string] is string-like and a range of characters; it is encoded
    as a string. *)
Lemma dispatch_applies_first_category_witness :
  detail.string_like (std_string "hi") = true /\
  ranges_range (std_string "hi") = true /\
  Category.classify (std_string "hi") = Some Category.string_like /\
  serialize any_format (std_string "hi") {| buffer := "" |} =
  Normal tt {| buffer := quoted "hi" |}.
Proof.
  split; [reflexivity|]. split; [reflexivity|].
  destruct (proj2 (dispatch_applies_first_category any_format
                     (std_string "hi") {| buffer := "" |})
              eq_refl eq_refl) as (Hclass & s & Hs & Hout & _).
  split; [exact Hclass|].
  injection Hs as <-. exact Hout.
Defined.

(** One base with [f1], own fields [f2] and [f3]. *)
Lemma object_fields_in_flattened_order_witness :
  Forall2 (fun f text =>
             encode any_format
               (get f (members [("B::f1", int 1); ("D::f2", int 2);
                                ("D::f3", int 3)])) = Some text)
          (flattened_fields
             (meta.describe [meta.describe [] [meta.field "B::f1" "f1"]]
                [meta.field "D::f2" "f2"; meta.field "D::f3" "f3"]))
          ["1"; "2"; "3"] /\
  encode any_format
    (Compound None None
       (Some (meta.describe [meta.describe [] [meta.field "B::f1" "f1"]]
                [meta.field "D::f2" "f2"; meta.field "D::f3" "f3"],
              members [("B::f1", int 1); ("D::f2", int 2); ("D::f3", int 3)])))
  = Some ("{" ++ quoted "f1" ++ ":1," ++ quoted "f2" ++ ":2,"
              ++ quoted "f3" ++ ":3}").
Proof.
  assert (H : Forall2 (fun f text =>
             encode any_format
               (get f (members [("B::f1", int 1); ("D::f2", int 2);
                                ("D::f3", int 3)])) = Some text)
          (flattened_fields
             (meta.describe [meta.describe [] [meta.field "B::f1" "f1"]]
                [meta.field "D::f2" "f2"; meta.field "D::f3" "f3"]))
          ["1"; "2"; "3"]).
  { simpl. repeat constructor. }
  split; [exact H|].
  exact (proj1 (proj2 (proj2 (object_fields_in_flattened_order any_format _ _)))
           _ H).
Defined.

Lemma write_escaped_round_trip_witness :
  detail.string_like
    (std_string (String "a" (String quote (String newline "b")))) = true /\
  to_json any_format
    (std_string (String "a" (String quote (String newline "b"))))
  = Normal tt
      {| buffer :=
           quoted (String "a"
                     (String backslash
                        (String quote (String backslash "nb")))) |} /\
  decode_string
    (quoted (String "a"
               (String backslash (String quote (String backslash "nb")))))
  = Some (String "a" (String quote (String newline "b")), "").
Proof.
  split; [reflexivity|].
  destruct (write_escaped_round_trip any_format
              (std_string (String "a" (String quote (String newline "b"))))
              eq_refl) as (s & Hs & _ & Hjson & _ & _ & Hdecode).
  injection Hs as <-.
  split; [exact Hjson|]. exact (Hdecode "").
Defined.

Lemma variant_is_index_value_object_witness :
  in_range size_t 1 /\
  serialize any_format (Variant 1 (std_string "hi")) {| buffer := "" |} =
  Normal tt
    {| buffer := "{" ++ quoted "index" ++ ":1," ++ quoted "value" ++ ":"
                     ++ quoted "hi" ++ "}" |}.
Proof.
  assert (H : in_range size_t 1) by (unfold in_range; simpl; lia).
  split; [exact H|].
  exact (variant_is_index_value_object any_format 1 (std_string "hi")
           {| buffer := "" |} H).
Defined.

Lemma enum_lookup_first_match_witness :
  NoDup (map meta.case_name (meta.cases (meta.enum_description Tone))) /\
  meta.name_of (meta.enum_description Tone) 1 = Some "cool" /\
  meta.value_of (meta.enum_description Tone) "cool" = Some 1%Z.
Proof.
  assert (H : NoDup (map meta.case_name
                       (meta.cases (meta.enum_description Tone)))).
  { simpl. repeat constructor; simpl; intuition discriminate. }
  split; [exact H|]. split; [reflexivity|].
  exact (proj1 (proj2 (proj2 (enum_lookup_first_match
                                (meta.enum_description Tone))))
           H 1%Z "cool" eq_refl).
Defined.

Lemma serialize_only_appends_witness :
  serialize any_format (std_vector [int 1; int 2]) {| buffer := "x=" |} =
  Normal tt {| buffer := "x=[1,2]" |} /\
  exists suffix,
    "x=[1,2]" = "x=" ++ suffix /\
    String.prefix "x=" "x=[1,2]" = true /\
    to_json any_format (std_vector [int 1; int 2]) =
    Normal tt {| buffer := suffix |} /\
    forall other,
      serialize any_format (std_vector [int 1; int 2]) other =
      Normal tt {| buffer := buffer other ++ suffix |}.
Proof.
  split; [reflexivity|].
  exact (proj2 (proj2 (serialize_only_appends any_format
                         (std_vector [int 1; int 2]) {| buffer := "x=" |}))
           {| buffer := "x=[1,2]" |} eq_refl).
Defined.

(** * Further properties of the encoder *)

(** ** Which failures there are *)

Section Failures.

Variable E : serialization_error -> Prop.
Variable D : string -> Prop.

Lemma failures_ret {A} (a : A) : failures E D (ret a).
Proof. intros out. exact I. Qed.

Lemma failures_call f : failures E D (call f).
Proof. intros out. exact I. Qed.



Lemma failures_bind {A B} (m : M A) (k : A -> M B) :
  failures E D m -> (forall a, failures E D (k a)) -> failures E D (bind m k).
Proof.
  intros Hm Hk out. unfold bind. specialize (Hm out).
  destruct (m out) as [a o|e o|d]; [apply Hk | exact Hm | exact Hm].
Qed.



Lemma failures_write_delimiter first : failures E D (write_delimiter first).
Proof.
  destruct first; unfold write_delimiter.
  - apply failures_ret.
  - apply failures_bind; [apply failures_call | intros; apply failures_ret].
Qed.

End Failures.

Create HintDb failures.
#[local] Hint Resolve failures_ret failures_call failures_write_delimiter
  : failures.


Section FailuresOfSerialize.

Variable floating_text : floating_format.

#[local] Abbreviation serialize := (serialize floating_text).

#[local] Abbreviation E := conversion_error.
#[local] Abbreviation D := rejection.






End FailuresOfSerialize.

(** ** Sequences and maps *)

Ltac normalise_writes :=
  repeat (progress
            (unfold bind, call, serialize_object_begin, serialize_object_end,
               write_delimiter, ret, serialize_string, std_string_view,
               string_view;
             cbv beta iota));
  rewrite ?write_escaped_write, ?write_char_write, ?write_write.

Ltac equal_texts :=
  unfold write, write_char, push_back; simpl;
  rewrite ?append_assoc; simpl; rewrite ?append_assoc; reflexivity.

Lemma string_view_string_like (value : value_t) (s : string) :
  string_view value = Some s -> detail.string_like value = true.
Proof.
  destruct value as [| | | | | | |[v|] r d]; try discriminate. reflexivity.
Qed.

Section Containers.

Variable floating_text : floating_format.

#[local] Abbreviation serialize := (serialize floating_text).
#[local] Abbreviation to_json := (to_json floating_text).
#[local] Abbreviation encode := (encode floating_text).

(** The loop of [serialize_sequence] over elements that encode to [texts]. *)
Lemma elements_loop (range : list value_t) :
  forall texts,
    Forall2 (fun element text => encode element = Some text) range texts ->
    forall first out,
      for_each (fun element first =>
                  first <- write_delimiter first ;;
                  serialize element ;;
                  ret first) range first out =
      Normal (first && is_empty range) (write (delimited first texts) out).
Proof.
  induction 1 as [|x text range texts Hx _ IH]; intros first out; simpl.
  - rewrite write_nil, andb_true_r. reflexivity.
  - apply encode_Some in Hx.
    assert (Hbody :
              bind (write_delimiter first)
                (fun first0 => serialize x ;; ret first0) out =
              Normal false (write ((if first then "" else ",") ++ text) out)).
    { destruct first; normalise_writes; rewrite frame_to_json, Hx;
        equal_texts. }
    unfold bind in Hbody. unfold bind. rewrite Hbody.
    rewrite IH, write_write, andb_false_r.
    now rewrite append_assoc.
Qed.

(** X3: a range that is not string-like and whose elements are not pairs is
    encoded as an array: the encodings of its elements in iteration order,
    separated by commas, between brackets; an empty range as the two
    brackets. *)
Theorem sequence_is_array (range : list value_t) (texts : list string)
    description :
  Forall2 (fun element text => encode element = Some text) range texts ->
  encode (Compound None (Some (elements range)) description) =
  Some ("[" ++ comma_separated texts ++ "]").
Proof.
  intros H. apply encode_Some.
  rewrite to_json_serialize, serialize_Compound_elements.
  unfold serialize_sequence.
  unfold bind at 1. unfold call at 1. unfold bind at 1.
  rewrite (elements_loop range texts H).
  rewrite delimited_comma_separated. unfold call. equal_texts.
Qed.

(** The loop of [serialize_map] over entries with string-like keys. *)
Lemma entries_loop (range : list (value_t * value_t)) :
  forall members,
    Forall2 (fun pair member =>
               string_view (fst pair) = Some (fst member) /\
               encode (snd pair) = Some (snd member)) range members ->
    forall first out,
      for_each (fun pair first =>
                  if detail.string_like (fst pair) then
                    first <- write_delimiter first ;;
                    serialize_string (fst pair) ;;
                    call (write_char ":") ;;
                    serialize (snd pair) ;;
                    ret first
                  else
                    static_assert_fails "JSON map keys must be string-like")
               range first out =
      Normal (first && is_empty range)
        (write (delimited first
                  (map (fun member => member_text (fst member) (snd member))
                       members)) out).
Proof.
  induction 1 as [|[k v] [key text] range members [Hk Hv] _ IH];
    intros first out; simpl.
  - rewrite write_nil, andb_true_r. reflexivity.
  - simpl in Hk, Hv. rewrite (string_view_string_like k key Hk).
    apply encode_Some in Hv.
    assert (Hbody :
              bind (write_delimiter first)
                (fun first0 =>
                   serialize_string k ;;
                   call (write_char ":") ;;
                   serialize v ;; ret first0) out =
              Normal false
                (write ((if first then "" else ",") ++ member_text key text)
                       out)).
    { unfold serialize_string. rewrite Hk.
      destruct first; normalise_writes; rewrite frame_to_json, Hv;
        unfold member_text; equal_texts. }
    unfold bind in Hbody. unfold bind. rewrite Hbody.
    rewrite IH, write_write, andb_false_r.
    now rewrite append_assoc.
Qed.

(** X4: a range of pairs with string-like keys is encoded as an object: for
    each entry, in iteration order, the escaped key between quotes, a colon
    and the encoding of the mapped value, separated by commas, between
    braces. *)
Theorem map_is_object (range : list (value_t * value_t))
    (members : list (string * string)) description :
  Forall2 (fun pair member =>
             string_view (fst pair) = Some (fst member) /\
             encode (snd pair) = Some (snd member)) range members ->
  encode (Compound None (Some (entries range)) description) =
  Some ("{" ++ comma_separated
                 (map (fun member => member_text (fst member) (snd member))
                      members)
            ++ "}").
Proof.
  intros H. apply encode_Some.
  rewrite to_json_serialize, serialize_Compound_entries.
  unfold serialize_map.
  unfold bind at 1. unfold call at 1. unfold bind at 1.
  rewrite (entries_loop range members H).
  rewrite delimited_comma_separated. unfold call. equal_texts.
Qed.

(** X5: when an element of a sequence throws, the sequence throws the same
    error; the opening bracket, the elements before it and what the failing
    element had written are in the buffer, and neither the elements after it
    nor the closing bracket are. *)
Theorem sequence_stops_at_first_throw
    (before after : list value_t) (x : value_t) (texts : list string)
    (e : serialization_error) (o : json_writer) description :
  Forall2 (fun element text => encode element = Some text) before texts ->
  to_json x = Throw e o ->
  to_json (Compound None (Some (elements (before ++ x :: after))) description)
  = Throw e {| buffer := "[" ++ delimited true texts
                             ++ (if is_empty before then "" else ",")
                             ++ buffer o |}.
Proof.
  intros Hbefore Hx.
  rewrite to_json_serialize, serialize_Compound_elements.
  unfold serialize_sequence.
  unfold bind at 1. unfold call at 1. unfold bind at 1.
  rewrite for_each_app. unfold bind at 1.
  rewrite (elements_loop before texts Hbefore).
  cbn [for_each]. unfold bind at 1. unfold bind at 1.
  destruct before as [|b before]; cbn [is_empty andb];
    normalise_writes; rewrite frame_to_json, Hx; equal_texts.
Qed.

End Containers.

(** ** Enumerations without a matching case *)

Lemma find_none_iff {X} (p : X -> bool) (l : list X) :
  find p l = None <-> Forall (fun x => p x = false) l.
Proof.
  induction l as [|x l IH]; simpl.
  - split; [constructor | reflexivity].
  - destruct (p x) eqn:Hp.
    + split; [discriminate | intros H; inversion H; congruence].
    + rewrite IH. split; [now constructor | now inversion 1].
Qed.

(** X6: [name_of] finds nothing exactly when no case has the discriminant,
    and [value_of] exactly when no case has the name; what they find
    belongs to a case of the descriptor; and when one of them finds
    something, the other finds something for it. *)
Theorem enum_lookup_defined (d : meta.enum_descriptor) :
  (forall value,
      meta.name_of d value = None <->
      Forall (fun c => meta.case_value c <> value) (meta.cases d)) /\
  (forall name,
      meta.value_of d name = None <->
      Forall (fun c => meta.case_name c <> name) (meta.cases d)) /\
  (forall value name,
      meta.name_of d value = Some name ->
      In (meta.case_ value name) (meta.cases d) /\
      meta.value_of d name <> None) /\
  (forall name value,
      meta.value_of d name = Some value ->
      In (meta.case_ value name) (meta.cases d) /\
      meta.name_of d value <> None).
Proof.
  split; [|split; [|split]].
  - intros value. rewrite name_of_find.
    destruct (find _ (meta.cases d)) as [c|] eqn:Hfind; simpl.
    + split; [discriminate|]. intros Hall. exfalso.
      apply find_some in Hfind as [Hin Hv]. apply Z.eqb_eq in Hv.
      rewrite Forall_forall in Hall. exact (Hall c Hin Hv).
    + split; [|reflexivity]. intros _.
      apply find_none_iff in Hfind.
      eapply Forall_impl; [|exact Hfind]. intros c Hc. cbv beta in Hc.
      now apply Z.eqb_neq.
  - intros name. rewrite value_of_find.
    destruct (find _ (meta.cases d)) as [c|] eqn:Hfind; simpl.
    + split; [discriminate|]. intros Hall. exfalso.
      apply find_some in Hfind as [Hin Hn]. apply String.eqb_eq in Hn.
      rewrite Forall_forall in Hall. exact (Hall c Hin Hn).
    + split; [|reflexivity]. intros _.
      apply find_none_iff in Hfind.
      eapply Forall_impl; [|exact Hfind]. intros c Hc. cbv beta in Hc.
      now apply String.eqb_neq.
  - intros value name H. rewrite name_of_find in H.
    destruct (find _ (meta.cases d)) as [c|] eqn:Hfind; [|discriminate H].
    injection H as <-. apply find_some in Hfind as [Hin Hv].
    apply Z.eqb_eq in Hv. subst value. destruct c as [v n]. simpl.
    split; [exact Hin|].
    rewrite value_of_find.
    destruct (find (fun c => (meta.case_name c =? n)%string) (meta.cases d))
      as [c'|] eqn:Hfind'; [discriminate|].
    apply find_none_iff in Hfind'. rewrite Forall_forall in Hfind'.
    specialize (Hfind' _ Hin). simpl in Hfind'.
    now rewrite String.eqb_refl in Hfind'.
  - intros name value H. rewrite value_of_find in H.
    destruct (find _ (meta.cases d)) as [c|] eqn:Hfind; [|discriminate H].
    injection H as <-. apply find_some in Hfind as [Hin Hn].
    apply String.eqb_eq in Hn. subst name. destruct c as [v n]. simpl.
    split; [exact Hin|].
    rewrite name_of_find.
    destruct (find (fun c => (meta.case_value c =? v)%Z) (meta.cases d))
      as [c'|] eqn:Hfind'; [discriminate|].
    apply find_none_iff in Hfind'. rewrite Forall_forall in Hfind'.
    specialize (Hfind' _ Hin). simpl in Hfind'.
    now rewrite Z.eqb_refl in Hfind'.
Qed.

(** X7: an enumeration value that no case of the description of its type
    lists is encoded as the decimal text of its underlying integer, and the
    call returns. *)
Theorem enum_without_case_is_integer (floating_text : floating_format)
    (E : meta.enum_type) (n : Z) (out : json_writer) :
  Forall (fun c => meta.case_value c <> n)
         (meta.cases (meta.enum_description E)) ->
  serialize floating_text (Enum E n) out =
  Normal tt (write (decimal (static_cast (meta.underlying_type E) n)) out).
Proof.
  intros H. rewrite serialize_Enum. unfold serialize_enum.
  rewrite name_of_find.
  replace (find _ (meta.cases (meta.enum_description E))) with
    (@None meta.enum_case_descriptor).
  - simpl.
    rewrite (serialize_integral_in_range (meta.underlying_type E));
      [reflexivity | apply static_cast_in_range].
  - symmetry. apply find_none_iff.
    eapply Forall_impl; [|exact H]. intros c Hc. now apply Z.eqb_neq.
Qed.

(** ** What [write_escaped] writes *)

Lemma escape_length (c : ascii) :
  (1 <= String.length (escape c) <= 2)%nat.
Proof.
  unfold escape.
  repeat match goal with |- context [if ?b then _ else _] => destruct b end;
    simpl; lia.
Qed.

Lemma escape_characters (c x : ascii) :
  In x (list_ascii_of_string (escape c)) ->
  x <> newline /\ x <> carriage_return /\ x <> tab.
Proof.
  unfold escape.
  destruct (Ascii.eqb_spec c backslash) as [->|Hb];
    [simpl; intros [<-|[<-|[]]]; repeat split; discriminate|].
  destruct (Ascii.eqb_spec c quote) as [->|Hq];
    [simpl; intros [<-|[<-|[]]]; repeat split; discriminate|].
  destruct (Ascii.eqb_spec c newline) as [->|Hn];
    [simpl; intros [<-|[<-|[]]]; repeat split; discriminate|].
  destruct (Ascii.eqb_spec c carriage_return) as [->|Hr];
    [simpl; intros [<-|[<-|[]]]; repeat split; discriminate|].
  destruct (Ascii.eqb_spec c tab) as [->|Ht];
    [simpl; intros [<-|[<-|[]]]; repeat split; discriminate|].
  simpl. intros [<-|[]]. repeat split; assumption.
Qed.

Lemma list_ascii_of_string_app (s t : string) :
  list_ascii_of_string (s ++ t) =
  (list_ascii_of_string s ++ list_ascii_of_string t)%list.
Proof. induction s as [|c s IH]; simpl; [reflexivity | now rewrite IH]. Qed.

Lemma escaped_length (view : string) :
  (String.length view <= String.length (escaped view)
   <= 2 * String.length view)%nat.
Proof.
  induction view as [|c view IH]; simpl; [lia|].
  rewrite append_length. pose proof (escape_length c). lia.
Qed.

Lemma escaped_characters (view : string) (x : ascii) :
  In x (list_ascii_of_string (escaped view)) ->
  x <> newline /\ x <> carriage_return /\ x <> tab.
Proof.
  induction view as [|c view IH]; simpl; [intros []|].
  rewrite list_ascii_of_string_app. intros Hx.
  apply in_app_or in Hx as [Hx|Hx];
    [exact (escape_characters c x Hx) | exact (IH Hx)].
Qed.

(** X8: what [write_escaped] appends for [view] is a quote, a body and a
    quote.  The body has at least as many characters as [view] and at most
    twice as many, and no newline, carriage return or tab occurs in it. *)
Theorem write_escaped_body (view : string) (out : json_writer) :
  exists body,
    buffer (write_escaped view out) =
    buffer out ++ String quote (body ++ String quote "") /\
    (String.length view <= String.length body <= 2 * String.length view)%nat /\
    (String.length (buffer (write_escaped view out)) <=
     String.length (buffer out) + 2 * String.length view + 2)%nat /\
    forall c,
      In c (list_ascii_of_string body) ->
      c <> newline /\ c <> carriage_return /\ c <> tab.
Proof.
  exists (escaped view). pose proof (escaped_length view) as Hlen.
  split; [now rewrite write_escaped_write|]. split; [exact Hlen|]. split.
  - rewrite write_escaped_write. unfold write, quoted. simpl.
    rewrite append_length. simpl. rewrite append_length. simpl. lia.
  - apply escaped_characters.
Qed.

(** ** Integers, strings and the first character *)

Lemma digits_grows (fuel : nat) :
  forall (n : N) (acc : string),
    (String.length acc <= String.length (digits fuel n acc))%nat.
Proof.
  induction fuel as [|fuel IH]; intros n acc; simpl; [lia|].
  destruct (n / 10 =? 0)%N; simpl; [lia|].
  specialize (IH (n / 10)%N (String (digit_char (n mod 10)) acc)).
  simpl in IH. lia.
Qed.

Lemma decimal_nonempty (z : Z) : decimal z <> "".
Proof.
  assert (H : forall n, decimal_N n <> "").
  { intros n. unfold decimal_N. simpl digits.
    destruct (n / 10 =? 0)%N; [discriminate|].
    pose proof (digits_grows (N.size_nat n) (n / 10)
                  (String (digit_char (n mod 10)) "")) as Hlen.
    intros Heq. rewrite Heq in Hlen. simpl in Hlen. lia. }
  destruct z; simpl; [discriminate | apply H | discriminate].
Qed.

Section Texts.

Variable floating_text : floating_format.

#[local] Abbreviation serialize := (serialize floating_text).
#[local] Abbreviation to_json := (to_json floating_text).

(** X9: an integer within the range of its type is always converted: the
    call returns, and what it appends is a minus sign for a negative value
    and then at most twenty digits that denote the magnitude. *)
Theorem integral_in_range_is_decimal (T : integral_type) (n : Z)
    (out : json_writer) :
  in_range T n ->
  serialize (Integral T n) out = Normal tt (write (decimal n) out) /\
  decimal n = (if (n <? 0)%Z then "-" else "") ++ decimal_N (Z.abs_N n) /\
  parse_digits (decimal_N (Z.abs_N n)) 0 = Z.abs_N n /\
  (1 <= String.length (decimal_N (Z.abs_N n)) <= 20)%nat.
Proof.
  intros H. split.
  - rewrite serialize_Integral.
    now rewrite (serialize_integral_in_range T n H).
  - split; [now destruct n|]. split; [apply parse_digits_decimal_N|].
    pose proof (in_range_bounds T n H) as Hb. split.
    + pose proof (decimal_nonempty (Z.of_N (Z.abs_N n))) as Hne.
      destruct (Z.abs_N n) as [|p] eqn:Habs; [simpl; lia|].
      simpl in Hne. destruct (decimal_N (N.pos p)); [now elim Hne|simpl; lia].
    + apply decimal_N_length.
      change (10 ^ 20)%N with 100000000000000000000%N. lia.
Qed.

(** X10: string-like values with different characters have different
    encodings. *)
Theorem string_encoding_is_injective (v1 v2 : value_t) (s1 s2 : string) :
  string_view v1 = Some s1 ->
  string_view v2 = Some s2 ->
  to_json v1 = to_json v2 ->
  s1 = s2.
Proof.
  intros H1 H2 Heq.
  destruct v1 as [| | | | | | |[w1|] r1 d1]; try discriminate H1.
  destruct v2 as [| | | | | | |[w2|] r2 d2]; try discriminate H2.
  injection H1 as ->. injection H2 as ->.
  rewrite !to_json_serialize, !serialize_Compound_view in Heq.
  unfold call in Heq. rewrite !write_escaped_write in Heq.
  injection Heq as Heq.
  pose proof (decode_string_quoted s1 "") as D1.
  pose proof (decode_string_quoted s2 "") as D2.
  rewrite (append_nil_r (quoted (escaped s1))) in D1.
  rewrite (append_nil_r (quoted (escaped s2))) in D2.
  unfold quoted in D1, D2. rewrite Heq in D1. congruence.
Qed.

Lemma appends_tail_of_expected (has_value : bool) (payload : value_t) :
  appends (call (write_escaped "state") ;;
           call (write_char ":") ;;
           serialize_string
             (std_string_view (if has_value then "value" else "error")) ;;
           call (write_char ",") ;;
           call (write_escaped (if has_value then "value" else "error")) ;;
           call (write_char ":") ;;
           serialize payload).
Proof.
  repeat (apply appends_bind; [|intros ?]); auto with appends.
Qed.

(** A computation that first writes [c] and then only appends leaves [c]
    right after what the writer held. *)
Lemma opens_with (c : ascii) (k : M unit) (out : json_writer) :
  appends k ->
  match writer_of ((call (write_char c) ;; k) out) with
  | Some out' => exists rest, buffer out' = buffer out ++ String c rest
  | None => True
  end.
Proof.
  intros Hk. unfold bind at 1. unfold call at 1. rewrite (Hk _).
  destruct (k {| buffer := "" |}) as [a o|e o|d]; simpl; try exact I;
    exists (buffer o); unfold push_back; now rewrite append_assoc.
Qed.

Lemma opening_character_written (value : value_t) (cat : Category.t)
    (c : ascii) (out : json_writer) :
  Category.classify value = Some cat ->
  Category.opening_character cat = Some c ->
  match writer_of (serialize value out) with
  | Some out' => exists rest, buffer out' = buffer out ++ String c rest
  | None => True
  end.
Proof.
  intros Hcat Hopen.
  destruct value as [b|T n|T x|E n|[held|]|has_value payload|index alt
                     |[view|] [[l|l]|] [[d object]|]];
    unfold Category.classify in Hcat; simpl in Hcat;
    try discriminate Hcat;
    injection Hcat as <-; simpl in Hopen; try discriminate Hopen;
    injection Hopen as <-.
  - rewrite serialize_Expected. apply opens_with.
    apply appends_bind; [apply appends_tail_of_expected|].
    intros; auto with appends.
  - rewrite serialize_Variant. unfold serialize_object_begin.
    apply opens_with.
    unfold serialize_object_end.
    repeat (apply appends_bind; [|intros ?]); auto with appends.
  - rewrite serialize_Compound_view. unfold call. rewrite write_escaped_write.
    simpl. eexists. reflexivity.
  - rewrite serialize_Compound_view. unfold call. rewrite write_escaped_write.
    simpl. eexists. reflexivity.
  - rewrite serialize_Compound_view. unfold call. rewrite write_escaped_write.
    simpl. eexists. reflexivity.
  - rewrite serialize_Compound_view. unfold call. rewrite write_escaped_write.
    simpl. eexists. reflexivity.
  - rewrite serialize_Compound_view. unfold call. rewrite write_escaped_write.
    simpl. eexists. reflexivity.
  - rewrite serialize_Compound_view. unfold call. rewrite write_escaped_write.
    simpl. eexists. reflexivity.
  - rewrite serialize_Compound_elements. unfold serialize_sequence.
    apply opens_with.
    apply appends_bind; [|intros; auto with appends].
    apply appends_for_each. apply Forall_forall. intros element _ first.
    repeat (apply appends_bind; [|intros ?]); auto with appends.
  - rewrite serialize_Compound_elements. unfold serialize_sequence.
    apply opens_with.
    apply appends_bind; [|intros; auto with appends].
    apply appends_for_each. apply Forall_forall. intros element _ first.
    repeat (apply appends_bind; [|intros ?]); auto with appends.
  - rewrite serialize_Compound_entries. unfold serialize_map.
    apply opens_with.
    apply appends_bind; [|intros; auto with appends].
    apply appends_for_each. apply Forall_forall. intros pair _ first.
    destruct (detail.string_like (fst pair));
      repeat (apply appends_bind; [|intros ?]); auto with appends.
  - rewrite serialize_Compound_entries. unfold serialize_map.
    apply opens_with.
    apply appends_bind; [|intros; auto with appends].
    apply appends_for_each. apply Forall_forall. intros pair _ first.
    destruct (detail.string_like (fst pair));
      repeat (apply appends_bind; [|intros ?]); auto with appends.
  - rewrite serialize_Compound_description.
    unfold serialize_object, serialize_object_begin, serialize_object_end,
      for_each_field.
    apply opens_with.
    apply appends_bind; [|intros; auto with appends].
    apply appends_for_each_field_impl. intros name Ptr first.
    repeat (apply appends_bind; [|intros ?]); auto with appends.
Qed.



Lemma to_json_nonempty (value : value_t) :
  (forall T x, floating_text T x <> "") ->
  forall o, to_json value = Normal tt o -> buffer o <> "".
Proof.
  intros Hfloat.
  assert (Hopens : forall value cat c o,
             Category.classify value = Some cat ->
             Category.opening_character cat = Some c ->
             to_json value = Normal tt o -> buffer o <> "").
  { intros v cat c o Hcat Hopen Hv.
    pose proof (opening_character_written v cat c {| buffer := "" |}
                  Hcat Hopen) as H.
    rewrite to_json_serialize in Hv. rewrite Hv in H. simpl in H.
    destruct H as [rest ->]. discriminate. }
  assert (Hint : forall n o,
             serialize_integral n {| buffer := "" |} = Normal tt o ->
             buffer o <> "").
  { intros n o. unfold serialize_integral, to_chars.
    destruct (Nat.leb _ _); [|discriminate].
    intros H. injection H as <-. simpl. apply decimal_nonempty. }
  induction value
    as [b|T n|T x|E n| |held IH|has_value payload IH|index alt IH
        |view range description IHrange IHobject] using value_induction;
    intros o H.
  - destruct b; injection H as <-; discriminate.
  - rewrite to_json_serialize, serialize_Integral in H. exact (Hint n o H).
  - rewrite to_json_serialize, serialize_Floating in H.
    unfold serialize_floating, to_chars in H.
    destruct (Nat.leb _ _); [|discriminate H].
    injection H as <-. simpl. apply Hfloat.
  - rewrite to_json_serialize, serialize_Enum in H. unfold serialize_enum in H.
    destruct (meta.name_of (meta.enum_description E) n) as [name|].
    + unfold call in H. rewrite write_escaped_write in H.
      injection H as <-. discriminate.
    + exact (Hint _ o H).
  - injection H as <-. discriminate.
  - exact (IH o H).
  - refine (Hopens _ Category.result "{"%char o _ _ H); reflexivity.
  - refine (Hopens _ Category.variant "{"%char o _ _ H); reflexivity.
  - destruct view as [view|].
    { refine (Hopens _ Category.string_like quote o _ _ H); reflexivity. }
    destruct range as [[l|l]|].
    + refine (Hopens _ Category.sequence_like "["%char o _ _ H); reflexivity.
    + refine (Hopens _ Category.map_like "{"%char o _ _ H); reflexivity.
    + destruct description as [[d object]|].
      * refine (Hopens _ Category.reflectable_object "{"%char o _ _ H); reflexivity.
      * discriminate H.
Qed.

(** X12: when the standard library writes at least one character for every
    floating-point value, a call of [serialize] that returns has appended at
    least one character. *)
Theorem serialize_writes_something (value : value_t)
    (out out' : json_writer) :
  (forall T x, floating_text T x <> "") ->
  serialize value out = Normal tt out' ->
  buffer out' <> buffer out.
Proof.
  intros Hfloat H. rewrite frame_to_json in H.
  destruct (to_json value) as [[] o|e o|d] eqn:Hjson; try discriminate H.
  simpl in H. injection H as <-. simpl.
  pose proof (to_json_nonempty value Hfloat o Hjson) as Hne.
  intros Heq. apply Hne.
  apply (append_inv_head (buffer out)). now rewrite append_nil_r.
Qed.

(** X13: two values serialized one after the other into the same writer
    leave the text of the first followed by the text of the second after
    what the writer held. *)
Theorem serialize_twice_concatenates (v1 v2 : value_t) (t1 t2 : string)
    (out : json_writer) :
  encode floating_text v1 = Some t1 ->
  encode floating_text v2 = Some t2 ->
  (serialize v1 ;; serialize v2) out = Normal tt (write (t1 ++ t2) out).
Proof.
  intros H1 H2. apply encode_Some in H1. apply encode_Some in H2.
  unfold bind. rewrite frame_to_json, H1. simpl.
  rewrite frame_to_json, H2. simpl. unfold write.
  now rewrite append_assoc.
Qed.

(** X14: a map whose first key is not string-like is rejected by the
    [static_assert] of [serialize_map]; nothing is thrown. *)
Theorem map_with_other_key_is_rejected (pair : value_t * value_t)
    (rest : list (value_t * value_t)) description (out : json_writer) :
  detail.string_like (fst pair) = false ->
  serialize (Compound None (Some (entries (pair :: rest))) description) out =
  IllFormed "JSON map keys must be string-like".
Proof.
  intros H. rewrite serialize_Compound_entries. unfold serialize_map.
  unfold bind at 1. unfold call at 1. unfold bind at 1.
  cbn [for_each]. unfold bind at 1. rewrite H. reflexivity.
Qed.

End Texts.

(** ** The further properties at concrete inputs *)



Lemma sequence_is_array_witness :
  Forall2 (fun element text => encode any_format element = Some text)
          [int 1; int 2; int 3] ["1"; "2"; "3"] /\
  encode any_format (std_vector [int 1; int 2; int 3]) = Some "[1,2,3]" /\
  encode any_format (std_vector []) = Some "[]".
Proof.
  assert (H : Forall2
                (fun element text => encode any_format element = Some text)
                [int 1; int 2; int 3] ["1"; "2"; "3"])
    by (repeat constructor).
  split; [exact H|]. split.
  - exact (sequence_is_array any_format _ _ None H).
  - exact (sequence_is_array any_format [] [] None (Forall2_nil _)).
Defined.

Lemma map_is_object_witness :
  Forall2 (fun pair member =>
             string_view (fst pair) = Some (fst member) /\
             encode any_format (snd pair) = Some (snd member))
          [(std_string "a", int 1); (std_string "b", int 2)]
          [("a", "1"); ("b", "2")] /\
  encode any_format
    (std_map [(std_string "a", int 1); (std_string "b", int 2)])
  = Some ("{" ++ quoted "a" ++ ":1," ++ quoted "b" ++ ":2}").
Proof.
  assert (H : Forall2 (fun pair member =>
             string_view (fst pair) = Some (fst member) /\
             encode any_format (snd pair) = Some (snd member))
          [(std_string "a", int 1); (std_string "b", int 2)]
          [("a", "1"); ("b", "2")])
    by (repeat constructor).
  split; [exact H|].
  exact (map_is_object any_format _ _ None H).
Defined.

Lemma sequence_stops_at_first_throw_witness :
  Forall2 (fun element text => encode long_format element = Some text)
          [int 1] ["1"] /\
  to_json long_format (Floating double_t (S754_zero false))
  = Throw floating_conversion_failed {| buffer := "" |} /\
  to_json long_format
    (std_vector [int 1; Floating double_t (S754_zero false); int 3])
  = Throw floating_conversion_failed {| buffer := "[1," |}.
Proof.
  assert (H : Forall2
                (fun element text => encode long_format element = Some text)
                [int 1] ["1"])
    by (repeat constructor).
  split; [exact H|]. split; [reflexivity|].
  exact (sequence_stops_at_first_throw long_format [int 1] [int 3]
           (Floating double_t (S754_zero false)) ["1"]
           floating_conversion_failed {| buffer := "" |} None H eq_refl).
Defined.

(** An enumeration without metadata: its description has no case. *)
Lemma enum_without_case_is_integer_witness :
  Forall (fun c => meta.case_value c <> 7%Z)
         (meta.cases
            (meta.enum_description
               {| meta.underlying_type := int_t;
                  meta.std_meta_enum := None;
                  meta.reflect_enum := None |})) /\
  serialize any_format
    (Enum {| meta.underlying_type := int_t;
             meta.std_meta_enum := None;
             meta.reflect_enum := None |} 7) {| buffer := "" |}
  = Normal tt {| buffer := "7" |}.
Proof.
  split; [constructor|].
  exact (enum_without_case_is_integer any_format
           {| meta.underlying_type := int_t;
              meta.std_meta_enum := None;
              meta.reflect_enum := None |} 7 {| buffer := "" |}
           (Forall_nil _)).
Defined.

Lemma integral_in_range_is_decimal_witness :
  in_range int_t (-42) /\
  serialize any_format (int (-42)) {| buffer := "" |}
  = Normal tt {| buffer := "-42" |} /\
  parse_digits "42" 0 = 42%N.
Proof.
  assert (H : in_range int_t (-42)) by (unfold in_range; simpl; lia).
  split; [exact H|].
  destruct (integral_in_range_is_decimal any_format int_t (-42)
              {| buffer := "" |} H) as (Hs & _ & Hp & _).
  split; [exact Hs | exact Hp].
Defined.

(** A [std::string] and a [const char*] with the same characters. *)
Lemma string_encoding_is_injective_witness :
  string_view (std_string "hi") = Some "hi" /\
  string_view (Compound (Some "hi") None None) = Some "hi" /\
  to_json any_format (std_string "hi") =
  to_json any_format (Compound (Some "hi") None None) /\
  "hi" = "hi".
Proof.
  split; [reflexivity|]. split; [reflexivity|]. split; [reflexivity|].
  exact (string_encoding_is_injective any_format (std_string "hi")
           (Compound (Some "hi") None None) "hi" "hi"
           eq_refl eq_refl eq_refl).
Defined.


Lemma serialize_writes_something_witness :
  (forall T x, any_format T x <> "") /\
  serialize any_format (Optional (Some (int 5))) {| buffer := "n=" |}
  = Normal tt {| buffer := "n=5" |} /\
  "n=5" <> "n=".
Proof.
  assert (H : forall T x, any_format T x <> "") by (intros T x; discriminate).
  split; [exact H|]. split; [reflexivity|].
  exact (serialize_writes_something any_format (Optional (Some (int 5)))
           {| buffer := "n=" |} {| buffer := "n=5" |} H eq_refl).
Defined.

Lemma serialize_twice_concatenates_witness :
  encode any_format (int 42) = Some "42" /\
  encode any_format (Bool true) = Some "true" /\
  bind (serialize any_format (int 42))
       (fun _ => serialize any_format (Bool true)) {| buffer := "" |}
  = Normal tt {| buffer := "42true" |}.
Proof.
  split; [reflexivity|]. split; [reflexivity|].
  exact (serialize_twice_concatenates any_format (int 42) (Bool true)
           "42" "true" {| buffer := "" |} eq_refl eq_refl).
Defined.

(** A [std::map<int, int>]. *)
Lemma map_with_other_key_is_rejected_witness :
  detail.string_like (fst (int 1, int 2)) = false /\
  serialize any_format (std_map [(int 1, int 2)]) {| buffer := "" |}
  = IllFormed "JSON map keys must be string-like".
Proof.
  split; [reflexivity|].
  exact (map_with_other_key_is_rejected any_format (int 1, int 2) [] None
           {| buffer := "" |} eq_refl).
Defined.
